(** * Audiobook composition pipeline: subtitle composer, audiobook merger,
      batch file naming.

    Shallow embedding of [subtitle_composer.py], [audiobook_merger.py], the
    chapter loop and the file names of [tts_gui.py], the settings of
    [tts_engine.py] and the checks of [excel_processor.py], followed by
    their properties.

    Conventions of the embedding.
    - A Python [str] is a list of characters.  A character is one of the
      256 code points U+0000 to U+00FF, and the character classes ([\d],
      [\s], [str.isalnum], [str.isspace]) are Python's classes on these
      code points.  The one text with other characters, the display name
      of a voice, is given by its UTF-8 bytes; no character class is
      applied to it.
    - A Python [int] is a [Z]; a Python [float] is a binary64 [float].
    - Exceptions are values of [result]; a [try/except] is a [match].
    - The file system is an explicit [world] threaded through the calls. *)

From Stdlib Require Import ZArith List String Ascii Bool Lia Floats Uint63.
From stdpp Require Import gmap strings list.

Local Open Scope Z_scope.

(* ===================================================================== *)
(** * Python text                                                         *)
(* ===================================================================== *)

Abbreviation str := (list ascii).

(** A string literal as a Python [str]. *)
Definition lit (s : string) : str := list_ascii_of_string s.

Definition chr_code (c : ascii) : N := N_of_ascii c.

Definition in_range (lo hi : N) (c : ascii) : bool :=
  ((lo <=? chr_code c) && (chr_code c <=? hi))%N.

(** [\d] of [re]: the decimal digits; no code point from U+0080 to U+00FF
    is one. *)
Definition is_digit (c : ascii) : bool := in_range 48 57 c.

(** [str.isalnum] of one character: the digits and letters of ASCII and,
    from U+0080 to U+00FF, the letters (the ordinal indicators, the micro
    sign and the accented letters, without the multiplication and division
    signs) and the numeric characters (superscript digits and fractions). *)
Definition isalnum (c : ascii) : bool :=
  is_digit c || in_range 65 90 c || in_range 97 122 c
    || in_range 170 170 c || in_range 178 179 c || in_range 181 181 c
    || in_range 185 186 c || in_range 188 190 c
    || in_range 192 214 c || in_range 216 246 c || in_range 248 255 c.

(** [str.isspace] of one character, and [\s] of [re]: tab, line feed,
    vertical tab, form feed, carriage return, the four separators
    U+001C to U+001F, the space, the next-line control U+0085 and the
    no-break space U+00A0. *)
Definition isspace (c : ascii) : bool :=
  in_range 9 13 c || in_range 28 32 c || in_range 133 133 c
    || in_range 160 160 c.

Definition newline : ascii := ascii_of_N 10.

Definition is_newline (c : ascii) : bool := (chr_code c =? 10)%N.

Fixpoint dropwhile (p : ascii -> bool) (s : str) : str :=
  match s with
  | c :: r => if p c then dropwhile p r else s
  | [] => []
  end.

(** [s.strip()]: whitespace removed at both ends. *)
Definition strip (s : str) : str :=
  rev (dropwhile isspace (rev (dropwhile isspace s))).

(** Longest prefix of characters satisfying [p], and the rest. *)
Fixpoint span (p : ascii -> bool) (s : str) : str * str :=
  match s with
  | c :: r =>
      if p c then let '(a, b) := span p r in (c :: a, b) else ([], s)
  | [] => ([], [])
  end.

Fixpoint has_prefix (p s : str) : bool :=
  match p, s with
  | [], _ => true
  | a :: p', b :: s' => (chr_code a =? chr_code b)%N && has_prefix p' s'
  | _ :: _, [] => false
  end.

(** [p in s]. *)
Fixpoint contains (p s : str) : bool :=
  has_prefix p s || match s with [] => false | _ :: r => contains p r end.

Definition cons_head (c : ascii) (ls : list str) : list str :=
  match ls with
  | l :: r => (c :: l) :: r
  | [] => [[c]]
  end.

(** [s.split(sep)] for a non-empty [sep]: [skip] counts the characters of a
    separator already recognised that are still to be passed over. *)
Fixpoint split_go (sep : str) (skip : nat) (s : str) : list str :=
  match s with
  | [] => [[]]
  | c :: r =>
      match skip with
      | S k => split_go sep k r
      | O =>
          if has_prefix sep s
          then [] :: split_go sep (pred (length sep)) r
          else cons_head c (split_go sep 0 r)
      end
  end.

Definition split (sep s : str) : list str := split_go sep 0 s.

(** [sep.join(parts)]. *)
Fixpoint join (sep : str) (parts : list str) : str :=
  match parts with
  | [] => []
  | [p] => p
  | p :: r => p ++ sep ++ join sep r
  end.

(** ** [re.split(r'\n\s*\n', s)]

    One left-to-right pass.  After a line feed the scanner collects the run
    of whitespace that follows: [\s*] is greedy, so a match ends at the last
    line feed of that run, and there is no match when the run holds none.
    [cur] is the piece being read and [tail] the whitespace read since the
    last line feed, both reversed. *)
Inductive split_state :=
  | InText
  | AfterNewline (matched : bool) (tail : str).

Fixpoint re_split_go (s : str) (cur : str) (st : split_state)
    (out : list str) : list str :=
  match s with
  | [] =>
      match st with
      | InText => rev (rev cur :: out)
      | AfterNewline true tail => rev (rev tail :: rev cur :: out)
      | AfterNewline false tail => rev (rev (tail ++ newline :: cur) :: out)
      end
  | c :: r =>
      match st with
      | InText =>
          if is_newline c then re_split_go r cur (AfterNewline false []) out
          else re_split_go r (c :: cur) InText out
      | AfterNewline matched tail =>
          if is_newline c then re_split_go r cur (AfterNewline true []) out
          else if isspace c
          then re_split_go r cur (AfterNewline matched (c :: tail)) out
          else if matched
          then re_split_go r (c :: tail) InText (rev cur :: out)
          else re_split_go r (c :: tail ++ newline :: cur) InText out
      end
  end.

Definition re_split_blank (s : str) : list str := re_split_go s [] InText [].

(** ** Decimal numerals *)

Definition digit_val (c : ascii) : Z := Z.of_N (chr_code c) - 48.

(** [int(s)] on a run of digits. *)
Definition int_of_digits_from (acc : Z) (ds : str) : Z :=
  fold_left (fun a c => 10 * a + digit_val c) ds acc.

Definition int_of_digits (ds : str) : Z := int_of_digits_from 0 ds.

Definition digit_char (d : N) : ascii := ascii_of_N (48 + d).

Fixpoint dec_digits (fuel : nat) (n : N) (acc : str) : str :=
  match fuel with
  | O => acc
  | S f =>
      let acc' := digit_char (n mod 10) :: acc in
      if (n / 10 =? 0)%N then acc' else dec_digits f (n / 10) acc'
  end.

(** [str(n)] for a natural number: the binary size bounds the number of
    decimal digits. *)
Definition str_of_N (n : N) : str := dec_digits (S (N.to_nat (N.log2 n))) n [].

Definition zfill (width : nat) (s : str) : str :=
  repeat (digit_char 0) (width - length s) ++ s.

(** [f"{z:0{width}d}"]: the sign counts in the width. *)
Definition fmt_d (width : nat) (z : Z) : str :=
  if z <? 0
  then lit "-" ++ zfill (pred width) (str_of_N (Z.to_N (- z)))
  else zfill width (str_of_N (Z.to_N z)).

(** [str(z)] / [f"{z}"]. *)
Definition str_of_Z (z : Z) : str := fmt_d 0 z.

(* ===================================================================== *)
(** * subtitle_composer.py: timestamps                                    *)
(* ===================================================================== *)

Definition digits1 (s : str) : option (str * str) :=
  let '(d, r) := span is_digit s in
  match d with
  | [] => None
  | _ => Some (d, r)
  end.

Definition expect (p : ascii -> bool) (s : str) : option str :=
  match s with
  | c :: r => if p c then Some r else None
  | [] => None
  end.

Definition is_colon (c : ascii) : bool := (chr_code c =? 58)%N.
Definition is_comma_or_dot (c : ascii) : bool :=
  (chr_code c =? 44)%N || (chr_code c =? 46)%N.

(** [re.match(r'(\d+):(\d+):(\d+)[,\.](\d+)', timestamp)]: the four groups,
    converted by [int].  The match is anchored at the start only. *)
Definition match_timestamp (timestamp : str) : option (Z * Z * Z * Z) :=
  '(h, r) ← digits1 timestamp;
  r ← expect is_colon r;
  '(m, r) ← digits1 r;
  r ← expect is_colon r;
  '(s, r) ← digits1 r;
  r ← expect is_comma_or_dot r;
  '(ms, _) ← digits1 r;
  Some (int_of_digits h, int_of_digits m, int_of_digits s, int_of_digits ms).

Definition _add_offset_to_timestamp (timestamp : str) (offset_ms : Z) : str :=
  match match_timestamp timestamp with
  | None => timestamp
  | Some (hours, minutes, seconds, milliseconds) =>
      let total_ms :=
        hours * 3600000 + minutes * 60000 + seconds * 1000 + milliseconds in
      let total_ms := total_ms + offset_ms in
      let new_hours := total_ms / 3600000 in
      let total_ms := total_ms mod 3600000 in
      let new_minutes := total_ms / 60000 in
      let total_ms := total_ms mod 60000 in
      let new_seconds := total_ms / 1000 in
      let new_milliseconds := total_ms mod 1000 in
      fmt_d 2 new_hours ++ lit ":" ++ fmt_d 2 new_minutes ++ lit ":"
        ++ fmt_d 2 new_seconds ++ lit "," ++ fmt_d 3 new_milliseconds
  end.

(** The rendering [HH:MM:SS,mmm] of a time in milliseconds, as the last
    lines of [_add_offset_to_timestamp] produce it. *)
Definition format_timestamp (total_ms : Z) : str :=
  fmt_d 2 (total_ms / 3600000) ++ lit ":"
    ++ fmt_d 2 (total_ms mod 3600000 / 60000) ++ lit ":"
    ++ fmt_d 2 (total_ms mod 3600000 mod 60000 / 1000) ++ lit ","
    ++ fmt_d 3 (total_ms mod 3600000 mod 60000 mod 1000).

(** The time a timestamp denotes, in milliseconds. *)
Definition timestamp_ms (timestamp : str) : option Z :=
  '(h, m, s, ms) ← match_timestamp timestamp;
  Some (h * 3600000 + m * 60000 + s * 1000 + ms).

(* ===================================================================== *)
(** * subtitle_composer.py: blocks                                        *)
(* ===================================================================== *)

Definition nl : str := [newline].
Definition arrow : str := lit "-->".

Definition is_nil (s : str) : bool :=
  match s with
  | [] => true
  | _ => false
  end.

(** The body of the [for block in blocks] loop of
    [_adjust_subtitle_timing], with its two accumulators. *)
Fixpoint adjust_loop (blocks : list str) (offset_ms : Z)
    (adjusted_blocks : list str) (current_index : Z) : list str :=
  match blocks with
  | [] => adjusted_blocks
  | block :: rest =>
      if is_nil (strip block)
      then adjust_loop rest offset_ms adjusted_blocks current_index
      else
        let lines := split nl (strip block) in
        if (length lines <? 2)%nat
        then adjust_loop rest offset_ms adjusted_blocks current_index
        else
          let timing_line :=
            if (1 <? length lines)%nat then nth 1 lines [] else nth 0 lines []
          in
          if contains arrow timing_line
          then
            let parts := split arrow timing_line in
            let start_time := strip (nth 0 parts []) in
            let end_time := strip (nth 1 parts []) in
            let new_start := _add_offset_to_timestamp start_time offset_ms in
            let new_end := _add_offset_to_timestamp end_time offset_ms in
            let new_block :=
              str_of_Z current_index ++ nl ++ new_start ++ lit " --> "
                ++ new_end in
            let new_block :=
              if (2 <? length lines)%nat
              then new_block ++ nl ++ join nl (skipn 2 lines)
              else new_block in
            adjust_loop rest offset_ms (adjusted_blocks ++ [new_block])
              (current_index + 1)
          else adjust_loop rest offset_ms adjusted_blocks current_index
  end.

Definition _adjust_subtitle_timing (srt_content : str) (offset_ms : Z)
    (start_index : Z) : list str :=
  let blocks := re_split_blank (strip srt_content) in
  adjust_loop blocks offset_ms [] start_index.

(* ===================================================================== *)
(** * Exceptions, files and the state of a run                            *)
(* ===================================================================== *)

(** Exceptions, by class and occasion: [ValueError] is the one of
    [int(nan)], [FrameValueError] the [ValueError] that writing a frame
    raises for a value that does not fit its field, [RuntimeError] one that
    a progress callback may raise. *)
Inductive exn :=
  | FileNotFoundError
  | PermissionError
  | UnicodeDecodeError
  | OverflowError
  | ValueError
  | CouldntDecodeError
  | MutagenError
  | FrameValueError
  | RuntimeError.

Inductive result (A : Type) :=
  | Ok (a : A)
  | Raise (e : exn).
Arguments Ok {A} a.
Arguments Raise {A} e.

(** [str(e)]: one message per exception. *)
Definition exn_message (e : exn) : str :=
  match e with
  | FileNotFoundError => lit "No such file or directory"
  | PermissionError => lit "Permission denied"
  | UnicodeDecodeError => lit "invalid start byte"
  | OverflowError => lit "cannot convert float infinity to integer"
  | ValueError => lit "cannot convert float NaN to integer"
  | CouldntDecodeError => lit "Decoding failed"
  | MutagenError => lit "can't sync to MPEG frame"
  | FrameValueError => lit "Value too wide (>4 bytes)"
  | RuntimeError => lit "main thread is not in main loop"
  end.

(** A pydub [AudioSegment]: [seg_len] is what [len(segment)] returns, the
    duration in milliseconds measured on the decoded samples. *)
Record AudioSegment := {
  seg_len : N;
  seg_data : list Z
}.

Definition segment_empty : AudioSegment := {| seg_len := 0; seg_data := [] |}.

Definition segment_add (a b : AudioSegment) : AudioSegment :=
  {| seg_len := seg_len a + seg_len b; seg_data := seg_data a ++ seg_data b |}.

(** ID3v2 frames of mutagen. *)
Record TIT2 := {
  tit2_encoding : Z;
  tit2_text : list str
}.

Inductive frame :=
  | CHAP (encoding : Z) (element_id : str)
      (start_time end_time start_offset end_offset : Z)
      (sub_frames : list TIT2)
  | CTOC (encoding : Z) (element_id : str) (flags : Z)
      (child_element_ids : list str) (sub_frames : list TIT2)
  | OtherFrame (key : str).

(** [frame.HashKey], the key of a frame in the tag dictionary. *)
Definition HashKey (f : frame) : str :=
  match f with
  | CHAP _ element_id _ _ _ _ _ => lit "CHAP:" ++ element_id
  | CTOC _ element_id _ _ _ => lit "CTOC:" ++ element_id
  | OtherFrame key => key
  end.

Inductive file :=
  | TextFile (content : str)
  | Mp3File (audio : AudioSegment) (tags : option (gmap str frame))
  | OtherFile.

(** The file system: the files by path, the paths that cannot be created
    or written, and the MP3 paths whose tag area cannot be written. *)
Record world := {
  files : gmap str file;
  write_denied : gset str;
  tag_denied : gset str
}.

(** What the progress callback is told, in place of the message text. *)
Inductive event :=
  | EvStart (chapters : nat)
  | EvAdd (idx total : nat) (title : str)
  | EvSkipMissing (path : str)
  | EvSaving (chapters : nat)
  | EvMarkers (chapters : nat)
  | EvDone
  | EvTotal (chapters : nat)
  | EvDuration (total_ms : Z)
  | EvFile (path : str)
  | EvError (e : exn).

Record state := {
  st_world : world;
  st_log : list event
}.

(** Computations that read and write the state and may raise. *)
Definition M (A : Type) : Type := state -> result A * state.

Definition ret {A} (a : A) : M A := fun st => (Ok a, st).

Definition raise {A} (e : exn) : M A := fun st => (Raise e, st).

Definition bind {A B} (m : M A) (k : A -> M B) : M B :=
  fun st =>
    match m st with
    | (Ok a, st') => k a st'
    | (Raise e, st') => (Raise e, st')
    end.

(** [try: m  except Exception as e: handler e]. *)
Definition try_except {A} (m : M A) (handler : exn -> M A) : M A :=
  fun st =>
    match m st with
    | (Ok a, st') => (Ok a, st')
    | (Raise e, st') => handler e st'
    end.

#[global] Instance M_ret : MRet M := @ret.
#[global] Instance M_bind : MBind M := fun A B k m => bind m k.

Definition get_world : M world := fun st => (Ok (st_world st), st).

Definition put_world (w : world) : M unit :=
  fun st => (Ok tt, {| st_world := w; st_log := st_log st |}).

Definition lift {A} (r : result A) : M A := fun st => (r, st).

(** The optional [progress_callback]: [None], or a callable that is told
    an event and returns normally ([None]) or raises ([Some e]). *)
Inductive callback :=
  | NoCallback
  | Callable (call : event -> option exn).

(** The two callbacks that never raise: none, and a sink that returns
    normally whatever it is told. *)
Definition callback_of_bool (b : bool) : callback :=
  if b then Callable (fun _ => None) else NoCallback.

Coercion callback_of_bool : bool >-> callback.

(** [if progress_callback: progress_callback(message)]: the call is
    recorded, and what the callable raises is raised here. *)
Definition notify (progress_callback : callback) (ev : event) : M unit :=
  fun st =>
    match progress_callback with
    | NoCallback => (Ok tt, st)
    | Callable call =>
        let st' :=
          {| st_world := st_world st; st_log := st_log st ++ [ev] |} in
        match call ev with
        | None => (Ok tt, st')
        | Some e => (Raise e, st')
        end
    end.

(** [Path(p).exists()]. *)
Definition path_exists (w : world) (p : str) : bool :=
  match files w !! p with
  | Some _ => true
  | None => false
  end.

(** [open(p, 'r', encoding='utf-8').read()]. *)
Definition read_text (w : world) (p : str) : result str :=
  match files w !! p with
  | Some (TextFile content) => Ok content
  | Some _ => Raise UnicodeDecodeError
  | None => Raise FileNotFoundError
  end.

Definition put_file (w : world) (p : str) (f : file) : world :=
  {| files := <[p := f]> (files w);
     write_denied := write_denied w;
     tag_denied := tag_denied w |}.


(* ===================================================================== *)
(** * subtitle_composer.py: SubtitleComposer                              *)
(* ===================================================================== *)

(** One entry of [self.chapters]. *)
Record chapter := {
  subtitle_path : str;
  chapter_id : str;
  duration : float;
  offset : float
}.

Definition add_chapter (chapters : list chapter) (path id : str)
    (duration_seconds : float) : list chapter :=
  chapters ++ [{| subtitle_path := path; chapter_id := id;
                  duration := duration_seconds; offset := 0%float |}].

Definition set_offset (ch : chapter) (o : float) : chapter :=
  {| subtitle_path := subtitle_path ch; chapter_id := chapter_id ch;
     duration := duration ch; offset := o |}.

Fixpoint calculate_offsets_from (cumulative_time : float)
    (chapters : list chapter) : list chapter :=
  match chapters with
  | [] => []
  | ch :: rest =>
      set_offset ch cumulative_time
        :: calculate_offsets_from (cumulative_time + duration ch)%float rest
  end.

Definition calculate_offsets (chapters : list chapter) : list chapter :=
  calculate_offsets_from 0%float chapters.

(** [int(x)] on a float: truncation toward zero; infinities and NaN raise. *)
Definition py_int (x : float) : result Z :=
  match Prim2SF x with
  | S754_zero _ => Ok 0
  | S754_finite sign m e =>
      let a := Z.shiftl (Z.pos m) e in
      Ok (if sign then - a else a)
  | S754_infinity _ => Raise OverflowError
  | S754_nan => Raise ValueError
  end.

(** The [for chapter in self.chapters] loop of [compose_master_subtitle]. *)
Fixpoint compose_loop (w : world) (chapters : list chapter)
    (master_content : list str) (subtitle_index : Z)
    : result (list str * Z) :=
  match chapters with
  | [] => Ok (master_content, subtitle_index)
  | ch :: rest =>
      match py_int (offset ch * 1000)%float with
      | Raise e => Raise e
      | Ok offset_ms =>
          if negb (path_exists w (subtitle_path ch))
          then compose_loop w rest master_content subtitle_index
          else
            match read_text w (subtitle_path ch) with
            | Raise e => Raise e
            | Ok content =>
                let adjusted_blocks :=
                  _adjust_subtitle_timing content offset_ms subtitle_index in
                compose_loop w rest (master_content ++ adjusted_blocks)
                  (subtitle_index + Z.of_nat (length adjusted_blocks))
            end
      end
  end.


(* ===================================================================== *)
(** * audiobook_merger.py: AudiobookMerger                                *)
(* ===================================================================== *)

(** One entry of [audio_files]: a dict with keys 'path', 'title', 'id'. *)
Record audio_file := {
  af_path : str;
  af_title : str;
  af_id : str
}.

(** One entry of [chapter_info]: a dict with keys 'id', 'title',
    'start_ms', 'end_ms', 'duration_ms'. *)
Record chapter_mark := {
  cm_id : str;
  cm_title : str;
  start_ms : Z;
  end_ms : Z;
  duration_ms : Z
}.

(** Values of the dictionary [merge_audiobook] returns.  [VReadable t]
    stands for the text [f"{hours}h {minutes}m {seconds}s"] of [t] ms. *)
Inductive pyval :=
  | VBool (b : bool)
  | VInt (z : Z)
  | VStr (s : str)
  | VReadable (total_ms : Z)
  | VChapters (l : list chapter_mark).

(** [AudioSegment.from_mp3(path)]. *)
Definition from_mp3 (w : world) (p : str) : result AudioSegment :=
  match files w !! p with
  | Some (Mp3File audio _) => Ok audio
  | Some _ => Raise CouldntDecodeError
  | None => Raise FileNotFoundError
  end.

(** [combined_audio.export(output_path, format="mp3", bitrate="128k")],
    after the [mkdir] of the parent: a fresh MP3 file without chapter
    frames. *)
Definition export (w : world) (combined_audio : AudioSegment)
    (output_path : str) : result world :=
  if decide (output_path ∈ write_denied w) then Raise PermissionError
  else Ok (put_file w output_path (Mp3File combined_audio None)).

(** The [for idx, audio_file in enumerate(audio_files, 1)] loop. *)
Fixpoint merge_loop (progress_callback : callback) (total idx : nat)
    (audio_files : list audio_file) (combined_audio : AudioSegment)
    (chapter_info : list chapter_mark) (current_position_ms : Z)
    : M (AudioSegment * list chapter_mark * Z) :=
  match audio_files with
  | [] => mret (combined_audio, chapter_info, current_position_ms)
  | audio_file :: rest =>
      _ ← notify progress_callback (EvAdd idx total (af_title audio_file));
      w ← get_world;
      if negb (path_exists w (af_path audio_file))
      then
        _ ← notify progress_callback (EvSkipMissing (af_path audio_file));
        merge_loop progress_callback total (S idx) rest combined_audio
          chapter_info current_position_ms
      else
        segment ← lift (from_mp3 w (af_path audio_file));
        let duration_ms := Z.of_N (seg_len segment) in
        let chapter_info :=
          chapter_info ++
            [{| cm_id := af_id audio_file;
                cm_title := af_title audio_file;
                start_ms := current_position_ms;
                end_ms := current_position_ms + duration_ms;
                duration_ms := duration_ms |}] in
        merge_loop progress_callback total (S idx) rest
          (segment_add combined_audio segment) chapter_info
          (current_position_ms + duration_ms)
  end.

(** ** [add_chapter_markers] *)

Record mp3_handle := {
  mp3_audio : AudioSegment;
  mp3_tags : option (gmap str frame)
}.

(** [MP3(audio_path)] of mutagen. *)
Definition MP3 (w : world) (audio_path : str) : result mp3_handle :=
  match files w !! audio_path with
  | Some (Mp3File audio tags) => Ok {| mp3_audio := audio; mp3_tags := tags |}
  | _ => Raise MutagenError
  end.

(** [audio.add_tags()]: raises when the file already has a tag. *)
Definition add_tags (audio : mp3_handle) : result mp3_handle :=
  match mp3_tags audio with
  | None => Ok {| mp3_audio := mp3_audio audio; mp3_tags := Some ∅ |}
  | Some _ => Raise MutagenError
  end.

(** "Load or create ID3 tags": the inner [try/except]. *)
Definition load_or_create_tags (w : world) (audio_path : str)
    : result mp3_handle :=
  let attempt :=
    match MP3 w audio_path with
    | Raise e => Raise e
    | Ok audio =>
        match mp3_tags audio with
        | None => add_tags audio
        | Some _ => Ok audio
        end
    end in
  match attempt with
  | Ok audio => Ok audio
  | Raise _ =>
      match MP3 w audio_path with
      | Raise e => Raise e
      | Ok audio => add_tags audio
      end
  end.

(** A Python [bytes] value. *)
Inductive bytes := Bytes (data : list ascii).

(** [str(value)] of a [bytes] value, which is what the text fields of a
    frame ([element_id], [child_element_ids]) store of the value they are
    given: the [repr], here for bytes of letters and digits (nothing to
    escape), the only ones [add_chapter_markers] builds. *)
Definition str_of_bytes (value : bytes) : str :=
  match value with
  | Bytes data => lit "b'" ++ data ++ lit "'"
  end.

(** [f"chap{idx:03d}".encode('utf-8')]. *)
Definition chapter_element_id (idx : nat) : bytes :=
  Bytes (lit "chap" ++ fmt_d 3 (Z.of_nat idx)).

(** The [CHAP(...)] frame of one chapter; [element_id] is given as
    [bytes] and stored as its [str]. *)
Definition chap_frame (idx : nat) (chapter : chapter_mark) : frame :=
  CHAP 3 (str_of_bytes (chapter_element_id idx))
    (start_ms chapter) (end_ms chapter)
    0xFFFFFFFF 0xFFFFFFFF
    [{| tit2_encoding := 3; tit2_text := [cm_title chapter] |}].

(** [audio.tags.add(frame)]. *)
Definition tags_add (tags : gmap str frame) (f : frame) : gmap str frame :=
  <[HashKey f := f]> tags.

(** The [for idx, chapter in enumerate(chapter_info, 1)] loop. *)
Fixpoint chap_loop (idx : nat) (chapter_info : list chapter_mark)
    (chapter_element_ids : list bytes) (tags : gmap str frame)
    : list bytes * gmap str frame :=
  match chapter_info with
  | [] => (chapter_element_ids, tags)
  | chapter :: rest =>
      chap_loop (S idx) rest
        (chapter_element_ids ++ [chapter_element_id idx])
        (tags_add tags (chap_frame idx chapter))
  end.

(** [CTOCFlags.TOP_LEVEL | CTOCFlags.ORDERED]. *)
Definition ctoc_flags : Z := Z.lor 2 1.

(** The [CTOC(...)] frame; [element_id=b'toc'] and the child ids are
    given as [bytes] and stored as their [str]. *)
Definition ctoc_frame (chapter_element_ids : list bytes) : frame :=
  CTOC 3 (str_of_bytes (Bytes (lit "toc"))) ctoc_flags
    (map str_of_bytes chapter_element_ids)
    [{| tit2_encoding := 3; tit2_text := [lit "Audiobook Chapters"] |}].

(** Whether a frame can be written to the file: the four times of a
    chapter frame are written as unsigned 32-bit integers, the number of
    children of a table of contents as one byte. *)
Definition frame_writable (f : frame) : bool :=
  match f with
  | CHAP _ _ start_time end_time start_offset end_offset _ =>
      (0 <=? start_time) && (start_time <? 2 ^ 32)
        && (0 <=? end_time) && (end_time <? 2 ^ 32)
        && (0 <=? start_offset) && (start_offset <? 2 ^ 32)
        && (0 <=? end_offset) && (end_offset <? 2 ^ 32)
  | CTOC _ _ _ child_element_ids _ =>
      (length child_element_ids <? 256)%nat
  | OtherFrame _ => true
  end.

(** Every frame of a tag dictionary can be written. *)
Definition tags_writable (tags : gmap str frame) : Prop :=
  map_Forall (fun _ f => frame_writable f = true) tags.

#[global] Instance tags_writable_dec (tags : gmap str frame) :
  Decision (tags_writable tags) :=
  map_Forall_dec (fun _ f => frame_writable f = true)
    (H7 := fun _ f => bool_eq_dec (frame_writable f) true) tags.

(** [audio.save()]: opens the file for writing, then writes every frame
    of the tag; a frame that cannot be written raises a [ValueError]. *)
Definition save (w : world) (audio_path : str) (audio : AudioSegment)
    (tags : gmap str frame) : result world :=
  if decide (audio_path ∈ tag_denied w) then Raise PermissionError
  else if decide (tags_writable tags)
  then Ok (put_file w audio_path (Mp3File audio (Some tags)))
  else Raise FrameValueError.

(** The tag dictionary of a handle on which tags were loaded or created. *)
Definition handle_tags (audio : mp3_handle) : gmap str frame :=
  match mp3_tags audio with
  | Some tags => tags
  | None => ∅
  end.

(** The statements of [add_chapter_markers] on a file system. *)
Definition add_chapter_markers_on (w : world) (audio_path : str)
    (chapter_info : list chapter_mark) : result world :=
  match load_or_create_tags w audio_path with
  | Raise e => Raise e
  | Ok audio =>
      let '(chapter_element_ids, tags) :=
        chap_loop 1 chapter_info [] (handle_tags audio) in
      let tags := tags_add tags (ctoc_frame chapter_element_ids) in
      save w audio_path (mp3_audio audio) tags
  end.

(** [add_chapter_markers]: the outer handler prints and re-raises. *)
Definition add_chapter_markers (audio_path : str)
    (chapter_info : list chapter_mark) : M unit :=
  try_except
    (w ← get_world;
     w' ← lift (add_chapter_markers_on w audio_path chapter_info);
     put_world w')
    (fun e => raise e).

(** ** [merge_audiobook] *)

(** The fixed message of the guard [len(chapter_info) == 0], in place of
    its Vietnamese text. *)
Definition no_valid_audio : str := lit "no valid audio file to merge".

Definition failure (message : str) : gmap str pyval :=
  <[lit "success" := VBool false]> (<[lit "error" := VStr message]> ∅).

Definition merged (output_path : str) (chapter_info : list chapter_mark)
    (current_position_ms : Z) : gmap str pyval :=
  <[lit "success" := VBool true]>
  (<[lit "output_path" := VStr output_path]>
  (<[lit "total_chapters" := VInt (Z.of_nat (length chapter_info))]>
  (<[lit "total_duration_ms" := VInt current_position_ms]>
  (<[lit "total_duration_readable" := VReadable current_position_ms]>
  (<[lit "chapter_info" := VChapters chapter_info]> ∅))))).

(** The body of the [try] block. *)
Definition merge_body (audio_files : list audio_file) (output_path : str)
    (progress_callback : callback) : M (gmap str pyval) :=
  _ ← notify progress_callback (EvStart (length audio_files));
  '(combined_audio, chapter_info, current_position_ms) ←
    merge_loop progress_callback (length audio_files) 1 audio_files
      segment_empty [] 0;
  if (length chapter_info =? 0)%nat
  then mret (failure no_valid_audio)
  else
    _ ← notify progress_callback (EvSaving (length chapter_info));
    w ← get_world;
    w' ← lift (export w combined_audio output_path);
    _ ← put_world w';
    _ ← notify progress_callback (EvMarkers (length chapter_info));
    _ ← add_chapter_markers output_path chapter_info;
    _ ← notify progress_callback EvDone;
    _ ← notify progress_callback (EvTotal (length chapter_info));
    _ ← notify progress_callback (EvDuration current_position_ms);
    _ ← notify progress_callback (EvFile output_path);
    mret (merged output_path chapter_info current_position_ms).

Definition merge_audiobook (audio_files : list audio_file)
    (output_path : str) (progress_callback : callback)
    : M (gmap str pyval) :=
  try_except (merge_body audio_files output_path progress_callback)
    (fun e =>
       _ ← notify progress_callback (EvError e);
       mret (failure (exn_message e))).

(* ===================================================================== *)
(** * tts_gui.py: output file names of [_batch_process]                   *)
(* ===================================================================== *)

Definition safe_char (c : ascii) : bool :=
  isalnum c || (chr_code c =? 32)%N || (chr_code c =? 45)%N
    || (chr_code c =? 95)%N.

(** [filename = f"{row['id']}_{row['title']}_Part{row['part']}"] followed by
    the filter on safe characters and [strip]; the three fields are given
    by their [str] renderings. *)
Definition batch_filename (id title part : str) : str :=
  strip (List.filter safe_char
           (id ++ lit "_" ++ title ++ lit "_Part" ++ part)).

(* ===================================================================== *)
(** * Definitions used to state the properties                            *)
(* ===================================================================== *)

(** The lines of a block, as the loop of [_adjust_subtitle_timing] sees
    them. *)
Definition block_lines (block : str) : list str := split nl (strip block).

(** The test the loop applies: at least two lines, and [-->] in the second
    one. *)
Definition block_retained (block : str) : bool :=
  (2 <=? length (block_lines block))%nat
    && contains arrow (nth 1 (block_lines block) []).

(** The block the loop appends for a retained block. *)
Definition render_block (offset_ms current_index : Z) (block : str) : str :=
  let lines := block_lines block in
  let parts := split arrow (nth 1 lines []) in
  let new_block :=
    str_of_Z current_index ++ nl
      ++ _add_offset_to_timestamp (strip (nth 0 parts [])) offset_ms
      ++ lit " --> "
      ++ _add_offset_to_timestamp (strip (nth 1 parts [])) offset_ms in
  if (2 <? length lines)%nat
  then new_block ++ nl ++ join nl (skipn 2 lines)
  else new_block.

(** Consecutive numbering of a list of blocks. *)
Fixpoint number_blocks (offset_ms current_index : Z) (blocks : list str)
    : list str :=
  match blocks with
  | [] => []
  | block :: rest =>
      render_block offset_ms current_index block
        :: number_blocks offset_ms (current_index + 1) rest
  end.





Definition sum_Z (l : list Z) : Z := fold_right Z.add 0 l.

(** A progress callback that returns normally whatever it is told. *)
Definition quiet (progress_callback : callback) : Prop :=
  match progress_callback with
  | NoCallback => True
  | Callable call => forall ev, call ev = None
  end.

(** Whether a progress callback is given. *)
Definition has_callback (progress_callback : callback) : bool :=
  match progress_callback with
  | NoCallback => false
  | Callable _ => true
  end.

(** A progress callback that raises whatever it is told. *)
Definition raising_callback : callback :=
  Callable (fun _ => Some RuntimeError).

(** The state after a call of the progress callback. *)
Definition logged (progress_callback : callback) (ev : event) (st : state)
    : state :=
  snd (notify progress_callback ev st).

(** The listed files that exist, in order. *)
Definition existing_files (w : world) (audio_files : list audio_file)
    : list audio_file :=
  List.filter (fun af => path_exists w (af_path af)) audio_files.

(** A listed file that exists can be decoded. *)
Definition decodable (w : world) (af : audio_file) : Prop :=
  path_exists w (af_path af) = true ->
  exists segment, from_mp3 w (af_path af) = Ok segment.

Definition decoded_segment (w : world) (af : audio_file) : AudioSegment :=
  match from_mp3 w (af_path af) with
  | Ok segment => segment
  | Raise _ => segment_empty
  end.

(** The measured duration of a chapter's audio, in milliseconds. *)
Definition decoded_ms (w : world) (af : audio_file) : Z :=
  Z.of_N (seg_len (decoded_segment w af)).

(** The boundaries of a list of chapters laid end to end from [pos]. *)
Fixpoint marks_from (w : world) (pos : Z) (l : list audio_file)
    : list chapter_mark :=
  match l with
  | [] => []
  | af :: rest =>
      {| cm_id := af_id af; cm_title := af_title af; start_ms := pos;
         end_ms := pos + decoded_ms w af; duration_ms := decoded_ms w af |}
        :: marks_from w (pos + decoded_ms w af) rest
  end.

(** The audio of a list of chapters appended to [combined_audio]. *)
Definition combined_from (w : world) (combined_audio : AudioSegment)
    (l : list audio_file) : AudioSegment :=
  fold_left (fun c af => segment_add c (decoded_segment w af)) l
    combined_audio.

(** Boundaries laid end to end from [pos], each of non-negative duration. *)
Fixpoint chained_from (pos : Z) (info : list chapter_mark) : Prop :=
  match info with
  | [] => True
  | b :: rest =>
      start_ms b = pos /\ 0 <= duration_ms b
      /\ end_ms b = pos + duration_ms b /\ chained_from (end_ms b) rest
  end.

(** The state in which the chapter markers are added. *)
Definition tagging_state (cb : callback) (info : list chapter_mark)
    (w' : world) (st : state) : state :=
  logged cb (EvMarkers (length info))
    {| st_world := w'; st_log := st_log st |}.

(** ** Sample data: three chapters of 5000, 6500 and 4000 ms *)

Definition sample_segment (ms : N) : AudioSegment :=
  {| seg_len := ms; seg_data := [] |}.

Definition sample_files : list audio_file :=
  [ {| af_path := lit "ch1.mp3"; af_title := lit "One"; af_id := lit "1" |};
    {| af_path := lit "ch2.mp3"; af_title := lit "Two"; af_id := lit "2" |};
    {| af_path := lit "ch3.mp3"; af_title := lit "Three"; af_id := lit "3" |} ].

(** All three audio files are present. *)
Definition sample_world : world :=
  {| files :=
       <[lit "ch1.mp3" := Mp3File (sample_segment 5000) None]>
       (<[lit "ch2.mp3" := Mp3File (sample_segment 6500) None]>
       (<[lit "ch3.mp3" := Mp3File (sample_segment 4000) None]> ∅));
     write_denied := ∅;
     tag_denied := ∅ |}.

(** The audio file of chapter 2 is missing. *)
Definition sample_world_gap : world :=
  {| files :=
       <[lit "ch1.mp3" := Mp3File (sample_segment 5000) None]>
       (<[lit "ch3.mp3" := Mp3File (sample_segment 4000) None]> ∅);
     write_denied := ∅;
     tag_denied := ∅ |}.


Definition start_state (w : world) : state := {| st_world := w; st_log := [] |}.

Definition sample_mark (id title : string) (start stop : Z) : chapter_mark :=
  {| cm_id := lit id; cm_title := lit title; start_ms := start;
     end_ms := stop; duration_ms := stop - start |}.

Definition sample_marks : list chapter_mark :=
  [ sample_mark "1" "One" 0 5000; sample_mark "2" "Two" 5000 11500;
    sample_mark "3" "Three" 11500 15500 ].

Definition sample_marks_gap : list chapter_mark :=
  [ sample_mark "1" "One" 0 5000; sample_mark "3" "Three" 5000 9000 ].

Definition sample_combined : AudioSegment := sample_segment 15500.

Definition sample_out : str := lit "master.mp3".

Definition is_chap (f : frame) : bool :=
  match f with
  | CHAP _ _ _ _ _ _ _ => true
  | _ => false
  end.

(** The key of the chapter frame number [idx] in the tag dictionary. *)
Definition chap_key (idx : nat) : str :=
  lit "CHAP:" ++ str_of_bytes (chapter_element_id idx).

(** The key of the table of contents in the tag dictionary. *)
Definition toc_key : str := lit "CTOC:" ++ str_of_bytes (Bytes (lit "toc")).

(** The element id of a frame, and the child ids of a table of contents. *)
Definition frame_element_id (f : frame) : str :=
  match f with
  | CHAP _ element_id _ _ _ _ _ => element_id
  | CTOC _ element_id _ _ _ => element_id
  | OtherFrame _ => []
  end.

Definition toc_children (f : frame) : list str :=
  match f with
  | CTOC _ _ _ child_element_ids _ => child_element_ids
  | _ => []
  end.

(** The times of a boundary fit the fields of a chapter frame. *)
Definition mark_writable (chapter : chapter_mark) : bool :=
  (0 <=? start_ms chapter) && (start_ms chapter <? 2 ^ 32)
    && (0 <=? end_ms chapter) && (end_ms chapter <? 2 ^ 32).

(** The tag dictionary [add_chapter_markers] builds from the frames of the
    file and the boundaries. *)
Definition tagged (before : gmap str frame) (info : list chapter_mark)
    : gmap str frame :=
  tags_add (snd (chap_loop 1 info [] before))
    (ctoc_frame (map chapter_element_id (seq 1 (length info)))).

(** The chapter frames of a tag dictionary. *)
Definition chapter_frames (tags : gmap str frame) : gmap str frame :=
  filter (fun kv => is_chap (snd kv) = true) tags.

(** A tag dictionary without chapter frames and without entries under the
    keys of chapter frames. *)
Definition chapter_free (tags : gmap str frame) : Prop :=
  forall k f, tags !! k = Some f ->
    is_chap f = false /\ forall idx, k <> chap_key idx.

(** The tag dictionary of a file before [add_chapter_markers]. *)
Definition tags_before (w : world) (audio_path : str) : gmap str frame :=
  match files w !! audio_path with
  | Some (Mp3File _ (Some tags)) => tags
  | _ => ∅
  end.

(** [sum] of a list of floats, from the left, starting at 0.0. *)
Definition float_sum (l : list float) : float :=
  fold_left PrimFloat.add l 0%float.

(** A duration measured in milliseconds, given to the composer in seconds:
    [ms / 1000]. *)
Definition seconds_of_ms (ms : Z) : float :=
  (PrimFloat.of_uint63 (Uint63.of_Z ms) / 1000)%float.

(** [offset_ms = int(chapter['offset'] * 1000)]. *)
Definition offset_ms_of (ch : chapter) : result Z :=
  py_int (offset ch * 1000)%float.

(** The chapters of the composer for audio of the given durations. *)
Definition chapters_of_ms (durations_ms : list Z) : list chapter :=
  map (fun ms => {| subtitle_path := []; chapter_id := [];
                    duration := seconds_of_ms ms; offset := 0%float |})
    durations_ms.

(** Two chapters of 1001 and 2000 ms. *)
Definition drift_files : list audio_file :=
  [ {| af_path := lit "a.mp3"; af_title := lit "A"; af_id := lit "1" |};
    {| af_path := lit "b.mp3"; af_title := lit "B"; af_id := lit "2" |} ].

Definition drift_world : world :=
  {| files :=
       <[lit "a.mp3" := Mp3File (sample_segment 1001) None]>
       (<[lit "b.mp3" := Mp3File (sample_segment 2000) None]> ∅);
     write_denied := ∅;
     tag_denied := ∅ |}.

Definition drift_marks : list chapter_mark :=
  [ sample_mark "1" "A" 0 1001; sample_mark "2" "B" 1001 3001 ].

(** ** The chapter loop of [_batch_process]

    The speech engine is outside the model: [tts idx retry] is what
    [generate_audio_sync] does at the attempt number [retry] on the chapter
    number [idx] (counted from 1).  The messages written to the log and the
    updates of the progress widgets are left out. *)

(** One entry of [rows]: a dict with keys 'id', 'title', 'part', 'text'. *)
Record row := {
  row_id : str;
  row_title : str;
  row_part : str;
  row_text : str
}.

(** A call of [generate_audio_sync]: a result with 'success': True, a
    result with 'success': False, or an exception. *)
Inductive outcome :=
  | Generated
  | Refused (error : str)
  | Crashed (e : exn).

Inductive batch_event :=
  | Attempt (idx retry : nat)
  | Backoff (seconds : Z)
  | Delay.

(** [processed], [failed], the chapters of the subtitle composer, and what
    the loop did: the calls of the engine, the waits [time.sleep(wait_time)]
    of the back-off and the waits [time.sleep(0.5)] between chapters. *)
Record batch_state := {
  processed : Z;
  failed : Z;
  composer : list chapter;
  trace : list batch_event
}.

Definition max_retries : nat := 3.

Definition record (ev : batch_event) (st : batch_state) : batch_state :=
  {| processed := processed st; failed := failed st;
     composer := composer st; trace := trace st ++ [ev] |}.

(** [len(row['text']) / 15]. *)
Definition estimated_duration (text : str) : float :=
  (PrimFloat.of_uint63 (Uint63.of_Z (Z.of_nat (length text))) / 15)%float.

(** [str(subtitle_dir / f"{filename}.srt")], with the separator of POSIX
    paths. *)
Definition subtitle_file (subtitle_dir : str) (r : row) : str :=
  subtitle_dir ++ lit "/"
    ++ batch_filename (row_id r) (row_title r) (row_part r) ++ lit ".srt".

(** The [for retry in range(max_retries)] loop, on the retries still to
    run. *)
Fixpoint retry_loop (tts : nat -> nat -> outcome) (subtitle_dir : str)
    (idx : nat) (r : row) (retries : list nat) (st : batch_state)
    : batch_state :=
  match retries with
  | [] => st
  | retry :: rest =>
      let st := record (Attempt idx retry) st in
      match tts idx retry with
      | Generated =>
          {| processed := processed st + 1; failed := failed st;
             composer :=
               add_chapter (composer st) (subtitle_file subtitle_dir r)
                 (row_id r) (estimated_duration (row_text r));
             trace := trace st |}
      | Refused _ | Crashed _ =>
          if (retry <? max_retries - 1)%nat
          then
            retry_loop tts subtitle_dir idx r rest
              (record (Backoff (2 ^ Z.of_nat retry)) st)
          else
            retry_loop tts subtitle_dir idx r rest
              {| processed := processed st; failed := failed st + 1;
                 composer := composer st; trace := trace st |}
      end
  end.

(** The [for idx, row in enumerate(rows, 1)] loop. *)
Fixpoint batch_loop (tts : nat -> nat -> outcome) (subtitle_dir : str)
    (total idx : nat) (rows : list row) (st : batch_state) : batch_state :=
  match rows with
  | [] => st
  | r :: rest =>
      let st := retry_loop tts subtitle_dir idx r (seq 0 max_retries) st in
      let st := if (idx <? total)%nat then record Delay st else st in
      batch_loop tts subtitle_dir total (S idx) rest st
  end.

(** The loop of [_batch_process] on [rows], from the counters at 0 and the
    composer cleared. *)
Definition batch_chapters (tts : nat -> nat -> outcome) (subtitle_dir : str)
    (rows : list row) : batch_state :=
  batch_loop tts subtitle_dir (length rows) 1 rows
    {| processed := 0; failed := 0; composer := []; trace := [] |}.

(** The chapter [idx] is generated at one of its attempts. *)
Definition generated (tts : nat -> nat -> outcome) (idx : nat) : bool :=
  existsb (fun retry => match tts idx retry with
                        | Generated => true
                        | _ => false
                        end) (seq 0 max_retries).

(** No attempt on the chapter [idx] succeeds. *)
Definition never_generated (tts : nat -> nat -> outcome) (idx : nat) : Prop :=
  forall retry, tts idx retry <> Generated.

(** The rows generated, in order, numbered from [idx]. *)
Fixpoint generated_rows (tts : nat -> nat -> outcome) (idx : nat)
    (rows : list row) : list row :=
  match rows with
  | [] => []
  | r :: rest =>
      if generated tts idx then r :: generated_rows tts (S idx) rest
      else generated_rows tts (S idx) rest
  end.

(** The chapter the loop gives to the subtitle composer for a row. *)
Definition chapter_of_row (subtitle_dir : str) (r : row) : chapter :=
  {| subtitle_path := subtitle_file subtitle_dir r; chapter_id := row_id r;
     duration := estimated_duration (row_text r); offset := 0%float |}.

(** The calls and waits of a chapter generated at the attempt number [k]. *)
Definition attempts_until (idx k : nat) : list batch_event :=
  flat_map (fun j => [Attempt idx j; Backoff (2 ^ Z.of_nat j)]) (seq 0 k)
    ++ [Attempt idx k].

Definition is_delay (ev : batch_event) : bool :=
  match ev with
  | Delay => true
  | _ => false
  end.

(** The number of waits between chapters in a trace. *)
Definition delays (tr : list batch_event) : nat :=
  length (List.filter is_delay tr).

(** [s.lstrip()] and [s.rstrip()]. *)
Definition lstrip (s : str) : str := dropwhile isspace s.
Definition rstrip (s : str) : str := rev (dropwhile isspace (rev s)).

(** Plain fields of a chapter: every character is safe, the id holds no
    underscore and starts with no white space, the part holds no "_Part"
    and ends with no white space. *)
Definition plain_fields (id title part : str) : Prop :=
  Forall (fun c => safe_char c = true) id
  /\ Forall (fun c => safe_char c = true) title
  /\ Forall (fun c => safe_char c = true) part
  /\ ~ In "_"%char id
  /\ lstrip id = id
  /\ contains (lit "_Part") part = false
  /\ rstrip part = part.

(* ===================================================================== *)
(** * tts_engine.py: the settings of TTSEngine                            *)
(* ===================================================================== *)

(** The fields [voice], [rate], [pitch], [volume] of a [TTSEngine]. *)
Record engine := {
  voice : str;
  rate : str;
  pitch : str;
  volume : str
}.

(** [f"{z:+d}"]: the sign is always written. *)
Definition fmt_plus_d (z : Z) : str :=
  if z <? 0 then lit "-" ++ str_of_N (Z.to_N (- z))
  else lit "+" ++ str_of_N (Z.to_N z).

(** [max(lo, min(hi, x))]. *)
Definition clamp (lo hi x : Z) : Z := Z.max lo (Z.min hi x).

Definition set_rate (e : engine) (rate_percent : Z) : engine :=
  let rate_percent := clamp (-50) 50 rate_percent in
  {| voice := voice e; rate := fmt_plus_d rate_percent ++ lit "%";
     pitch := pitch e; volume := volume e |}.

Definition set_pitch (e : engine) (pitch_hz : Z) : engine :=
  let pitch_hz := clamp (-50) 50 pitch_hz in
  {| voice := voice e; rate := rate e;
     pitch := fmt_plus_d pitch_hz ++ lit "Hz"; volume := volume e |}.

Definition set_volume (e : engine) (volume_percent : Z) : engine :=
  let volume_percent := clamp 0 100 volume_percent in
  let relative_volume := volume_percent - 100 in
  {| voice := voice e; rate := rate e; pitch := pitch e;
     volume := fmt_plus_d relative_volume ++ lit "%" |}.

(** [VIETNAMESE_VOICES]: the display names, given by their UTF-8 bytes (the
    letter after "N" in the first one takes three bytes), and the voice
    ids. *)
Definition VIETNAMESE_VOICES : gmap str str :=
  <[lit "HoaiMy (N" ++ [ascii_of_N 225; ascii_of_N 187; ascii_of_N 175]
      ++ lit ")" := lit "vi-VN-HoaiMyNeural"]>
  (<[lit "NamMinh (Nam)" := lit "vi-VN-NamMinhNeural"]> ∅).

Definition set_voice (e : engine) (voice_name : str) : engine :=
  match VIETNAMESE_VOICES !! voice_name with
  | Some voice_id =>
      {| voice := voice_id; rate := rate e; pitch := pitch e;
         volume := volume e |}
  | None =>
      {| voice := voice_name; rate := rate e; pitch := pitch e;
         volume := volume e |}
  end.

(* ===================================================================== *)
(** * excel_processor.py: the checks of ExcelProcessor                    *)
(* ===================================================================== *)

(** The values of [REQUIRED_COLUMNS], in the order of the dict. *)
Definition REQUIRED_COLUMNS : list str :=
  [ lit "ID"; lit "Title"; lit "Part"; lit "Source Text (Chinese)";
    lit "QuickTrans (Draft)"; lit "AI Result (Vietnamese)" ].

(** [col in self.data.columns]. *)
Definition has_column (columns : list str) (col : str) : bool :=
  existsb (fun c => bool_decide (c = col)) columns.

(** The loop of [_validate_columns] with its accumulator. *)
Fixpoint missing_loop (columns : list str) (required : list str)
    (missing_cols : list str) : list str :=
  match required with
  | [] => missing_cols
  | col :: rest =>
      if negb (has_column columns col)
      then missing_loop columns rest (missing_cols ++ [col])
      else missing_loop columns rest missing_cols
  end.

Definition _validate_columns (columns : list str) : bool :=
  match missing_loop columns REQUIRED_COLUMNS [] with
  | [] => true
  | _ :: _ => false
  end.

(** The text of a cell in [get_preview_data]:
    [str(x)[:100] + '...' if len(str(x)) > 100 else str(x)]. *)
Definition preview_text (x : str) : str :=
  if (100 <? length x)%nat then firstn 100 x ++ lit "..." else x.

(* ===================================================================== *)
(** * Further definitions used to state the properties                    *)
(* ===================================================================== *)

(** The blocks of a list start with consecutive numbers from [idx], each
    on a line of its own. *)
Definition numbered_from (idx : Z) (blocks : list str) : Prop :=
  forall i b, blocks !! i = Some b ->
    exists rest, b = str_of_Z (idx + Z.of_nat i) ++ nl ++ rest.

(** The chapters whose subtitle file exists, in order. *)
Definition chapters_with_subtitles (w : world) (chapters : list chapter)
    : list chapter :=
  List.filter (fun ch => path_exists w (subtitle_path ch)) chapters.

(** Subtitle files of chapters 1 and 3; the file of chapter 2 is
    missing. *)
Definition sample_srt (first second : string) : str :=
  lit "1" ++ nl ++ lit first ++ nl ++ lit "first cue" ++ nl ++ nl
    ++ lit "2" ++ nl ++ lit second ++ nl ++ lit "second cue".

Definition subtitle_world : world :=
  {| files :=
       <[lit "ch1.srt" :=
           TextFile (sample_srt "00:00:00,000 --> 00:00:02,500"
                       "00:00:02,500 --> 00:00:05,000")]>
       (<[lit "ch3.srt" :=
            TextFile (sample_srt "00:00:00,000 --> 00:00:01,000"
                        "00:00:01,000 --> 00:00:04,000")]> ∅);
     write_denied := ∅;
     tag_denied := ∅ |}.

Definition subtitle_chapters : list chapter :=
  add_chapter
    (add_chapter (add_chapter [] (lit "ch1.srt") (lit "1") 5%float)
       (lit "ch2.srt") (lit "2") 6.5%float)
    (lit "ch3.srt") (lit "3") 4%float.



(* ===================================================================== *)
(** * Decimal numerals: printing and reading                              *)
(* ===================================================================== *)

Section Numerals.

Lemma digit_char_spec (d : N) :
  (d < 10)%N ->
  is_digit (digit_char d) = true /\ digit_val (digit_char d) = Z.of_N d.
Proof.
  intros Hd.
  destruct (N.to_nat d) as [|[|[|[|[|[|[|[|[|[|n]]]]]]]]]] eqn:E; try lia.
  all: apply (f_equal N.of_nat) in E; rewrite N2Nat.id in E; subst d.
  all: by vm_compute.
Qed.

Lemma int_of_digits_from_app (a b : str) (x : Z) :
  int_of_digits_from x (a ++ b) = int_of_digits_from (int_of_digits_from x a) b.
Proof. unfold int_of_digits_from. apply fold_left_app. Qed.

Lemma dec_digits_read (fuel : nat) :
  forall (n : N) (acc : str),
    (n < 2 ^ N.of_nat fuel)%N ->
    int_of_digits (dec_digits fuel n acc) = int_of_digits_from (Z.of_N n) acc.
Proof.
  induction fuel as [|f IH]; intros n acc Hn.
  - simpl in Hn. assert (n = 0%N) by lia. subst n. reflexivity.
  - cbn [dec_digits].
    assert (Hmod : (n mod 10 < 10)%N) by (apply N.mod_lt; lia).
    destruct (digit_char_spec _ Hmod) as [_ Hval].
    assert (Hdm : n = (10 * (n / 10) + n mod 10)%N) by (apply N.div_mod; lia).
    destruct (N.eqb_spec (n / 10) 0) as [Hz|Hz].
    + unfold int_of_digits, int_of_digits_from. cbn [fold_left].
      rewrite Hval. f_equal. lia.
    + rewrite IH.
      * unfold int_of_digits_from. cbn [fold_left]. rewrite Hval.
        f_equal. lia.
      * rewrite Nat2N.inj_succ, N.pow_succ_r' in Hn.
        apply N.Div0.div_lt_upper_bound; lia.
Qed.

Lemma dec_digits_all_digits (fuel : nat) :
  forall (n : N) (acc : str),
    Forall (fun c => is_digit c = true) acc ->
    Forall (fun c => is_digit c = true) (dec_digits fuel n acc).
Proof.
  induction fuel as [|f IH]; intros n acc Hacc; [exact Hacc|].
  cbn [dec_digits].
  assert (Hmod : (n mod 10 < 10)%N) by (apply N.mod_lt; lia).
  destruct (digit_char_spec _ Hmod) as [Hdig _].
  destruct (n / 10 =? 0)%N; [|apply IH]; by constructor.
Qed.

Lemma dec_digits_nonempty (fuel : nat) :
  forall (n : N) (acc : str), acc <> [] \/ fuel <> O -> dec_digits fuel n acc <> [].
Proof.
  induction fuel as [|f IH]; intros n acc H.
  - simpl. by destruct H.
  - cbn [dec_digits]. destruct (n / 10 =? 0)%N; [done|]. apply IH. by left.
Qed.

Lemma N_lt_pow2_succ_log2 (n : N) : (n < 2 ^ N.of_nat (S (N.to_nat (N.log2 n))))%N.
Proof.
  rewrite Nat2N.inj_succ, N2Nat.id.
  destruct n as [|p]; [by vm_compute|].
  apply N.log2_spec. lia.
Qed.

Lemma str_of_N_read (n : N) : int_of_digits (str_of_N n) = Z.of_N n.
Proof.
  unfold str_of_N. rewrite dec_digits_read by apply N_lt_pow2_succ_log2.
  reflexivity.
Qed.

Lemma str_of_N_all_digits (n : N) :
  Forall (fun c => is_digit c = true) (str_of_N n).
Proof. apply dec_digits_all_digits. constructor. Qed.

Lemma str_of_N_nonempty (n : N) : str_of_N n <> [].
Proof. apply dec_digits_nonempty. by right. Qed.

Lemma int_of_digits_zeros (k : nat) (s : str) :
  int_of_digits (repeat (digit_char 0) k ++ s) = int_of_digits s.
Proof.
  unfold int_of_digits. rewrite int_of_digits_from_app. f_equal.
  induction k as [|k IH]; [reflexivity|].
  unfold int_of_digits_from in *. cbn [repeat fold_left]. exact IH.
Qed.

Lemma fmt_d_nonneg (width : nat) (z : Z) :
  0 <= z ->
  Forall (fun c => is_digit c = true) (fmt_d width z)
  /\ fmt_d width z <> []
  /\ int_of_digits (fmt_d width z) = z.
Proof.
  intros Hz. unfold fmt_d.
  destruct (Z.ltb_spec z 0) as [?|_]; [lia|]. unfold zfill.
  split; [|split].
  - apply Forall_app. split; [|apply str_of_N_all_digits].
    apply List.Forall_forall. intros c Hc. apply repeat_spec in Hc. by subst c.
  - intros H. apply List.app_eq_nil in H as [_ H]. by apply str_of_N_nonempty in H.
  - rewrite int_of_digits_zeros, str_of_N_read. lia.
Qed.

End Numerals.

(* ===================================================================== *)
(** * Timestamps                                                          *)
(* ===================================================================== *)

Section Timestamps.









(** On a timestamp that matches, the function renders the shifted time. *)
Lemma add_offset_matched (ts : str) (v offset_ms : Z) :
  timestamp_ms ts = Some v ->
  _add_offset_to_timestamp ts offset_ms = format_timestamp (v + offset_ms).
Proof.
  unfold timestamp_ms, _add_offset_to_timestamp.
  destruct (match_timestamp ts) as [[[[h m] s] ms]|]; [|discriminate].
  simpl. intros [= <-]. reflexivity.
Qed.

(** On a string that does not match, the function is the identity. *)
Lemma add_offset_unmatched (ts : str) (offset_ms : Z) :
  match_timestamp ts = None -> _add_offset_to_timestamp ts offset_ms = ts.
Proof. unfold _add_offset_to_timestamp. by intros ->. Qed.





End Timestamps.

(* ===================================================================== *)
(** * Output file names of the batch                                      *)
(* ===================================================================== *)

Section FileNames.

Ltac by_ascii_cases c :=
  destruct c as [[] [] [] [] [] [] [] []]; vm_compute; intuition congruence.

Lemma filter_all (p : ascii -> bool) (s : str) :
  Forall (fun c => p c = true) s -> List.filter p s = s.
Proof.
  induction 1 as [|c s Hc _ IH]; simpl; [reflexivity|]. by rewrite Hc, IH.
Qed.

Lemma filter_satisfies (p : ascii -> bool) (s : str) :
  Forall (fun c => p c = true) (List.filter p s).
Proof.
  induction s as [|c s IH]; simpl; [constructor|].
  destruct (p c) eqn:Hc; [by constructor | exact IH].
Qed.

Lemma dropwhile_suffix (p : ascii -> bool) (s : str) :
  exists a, s = a ++ dropwhile p s.
Proof.
  induction s as [|c s [a IH]]; simpl; [by exists []|].
  destruct (p c); [|by exists []].
  exists (c :: a). simpl. by f_equal.
Qed.

Lemma dropwhile_keeps (q : ascii -> Prop) (p : ascii -> bool) (s : str) :
  Forall q s -> Forall q (dropwhile p s).
Proof.
  intros H. destruct (dropwhile_suffix p s) as [a Ha].
  rewrite Ha in H. by apply Forall_app in H as [_ H].
Qed.

Lemma strip_keeps (q : ascii -> Prop) (s : str) : Forall q s -> Forall q (strip s).
Proof.
  intros H. unfold strip.
  apply Forall_rev, dropwhile_keeps, Forall_rev, dropwhile_keeps, H.
Qed.

(** The file name holds safe characters only. *)
Lemma batch_filename_safe (id title part : str) :
  Forall (fun c => safe_char c = true) (batch_filename id title part).
Proof. apply strip_keeps, filter_satisfies. Qed.

Lemma dropwhile_app_stop (p : ascii -> bool) (a : str) (c : ascii) (r : str) :
  p c = false -> dropwhile p (a ++ c :: r) = dropwhile p a ++ c :: r.
Proof.
  intros Hc. induction a as [|x a IH]; simpl; [by rewrite Hc|].
  by destruct (p x).
Qed.

Lemma strip_between (a c : str) (x y : ascii) (mid : str) :
  isspace x = false -> isspace y = false ->
  strip (a ++ x :: mid ++ y :: c) = lstrip a ++ x :: mid ++ y :: rstrip c.
Proof.
  intros Hx Hy. unfold strip, lstrip, rstrip.
  rewrite dropwhile_app_stop by done.
  replace (dropwhile isspace a ++ x :: mid ++ y :: c)
    with ((dropwhile isspace a ++ x :: mid) ++ y :: c)
    by by rewrite <- app_assoc.
  rewrite rev_app_distr. cbn [rev]. rewrite <- app_assoc. cbn [app].
  rewrite dropwhile_app_stop by done.
  rewrite rev_app_distr. cbn [rev]. rewrite rev_involutive.
  by rewrite <- !app_assoc.
Qed.

(** The parts of a file name. *)
Lemma batch_filename_parts (id title part : str) :
  batch_filename id title part
  = lstrip (List.filter safe_char id) ++ lit "_"
      ++ List.filter safe_char title ++ lit "_Part"
      ++ rstrip (List.filter safe_char part).
Proof.
  unfold batch_filename. rewrite !List.filter_app.
  change (List.filter safe_char (lit "_")) with (lit "_").
  change (List.filter safe_char (lit "_Part")) with (lit "_Part").
  change (lit "_") with ["_"%char].
  change (lit "_Part") with (lit "_Par" ++ ["t"%char]).
  cbn [app].
  replace (List.filter safe_char title
             ++ (lit "_Par" ++ ["t"%char]) ++ List.filter safe_char part)
    with ((List.filter safe_char title ++ lit "_Par")
            ++ "t"%char :: List.filter safe_char part)
    by by rewrite <- !app_assoc.
  rewrite strip_between by by vm_compute.
  by rewrite <- !app_assoc.
Qed.

(** On plain fields nothing is filtered or stripped. *)
Lemma batch_filename_plain (id title part : str) :
  plain_fields id title part ->
  batch_filename id title part = id ++ lit "_" ++ title ++ lit "_Part" ++ part.
Proof.
  intros (Hi & Ht & Hp & _ & Hl & _ & Hr).
  rewrite batch_filename_parts, !filter_all by done. by rewrite Hl, Hr.
Qed.

Lemma app_cons_unique (c : ascii) (a1 : str) :
  forall a2 b1 b2 : str,
    ~ In c a1 -> ~ In c a2 -> a1 ++ c :: b1 = a2 ++ c :: b2 ->
    a1 = a2 /\ b1 = b2.
Proof.
  induction a1 as [|x a1 IH]; intros [|y a2] b1 b2 H1 H2 Heq; simpl in *.
  - by injection Heq as ->.
  - injection Heq as -> _. tauto.
  - injection Heq as -> _. tauto.
  - injection Heq as -> Heq. destruct (IH a2 b1 b2) as [-> ->]; tauto.
Qed.

Lemma contains_marker (u r : str) :
  contains (lit "_Part") (u ++ lit "_Part" ++ r) = true.
Proof.
  induction u as [|c u IH]; [reflexivity|].
  cbn [app contains]. fold (contains (lit "_Part")).
  change (c :: u ++ lit "_Part" ++ r) with (c :: (u ++ lit "_Part" ++ r)).
  rewrite IH. apply orb_true_r.
Qed.

(** A text without the marker "_Part" starts right after the first
    marker. *)
Lemma marker_first (p t p' : str) :
  contains (lit "_Part") p = false ->
  lit "_Part" ++ p = t ++ lit "_Part" ++ p' -> t = [].
Proof.
  intros Hp Heq.
  destruct t as [|c1 [|c2 [|c3 [|c4 [|c5 t]]]]]; try done;
    try (cbn in Heq; congruence).
  cbn in Heq. injection Heq as _ _ _ _ _ Heq. rewrite Heq in Hp.
  change (contains (lit "_Part") (t ++ lit "_Part" ++ p') = false) in Hp.
  by rewrite contains_marker in Hp.
Qed.

(** A text is split in one way only at a marker "_Part" that is followed
    by no other. *)
Lemma marker_unique (t1 : str) :
  forall t2 p1 p2 : str,
    contains (lit "_Part") p1 = false -> contains (lit "_Part") p2 = false ->
    t1 ++ lit "_Part" ++ p1 = t2 ++ lit "_Part" ++ p2 ->
    t1 = t2 /\ p1 = p2.
Proof.
  induction t1 as [|x t1 IH]; intros t2 p1 p2 H1 H2 Heq.
  - pose proof (marker_first _ _ _ H1 Heq) as ->.
    split; [done|]. by apply (app_inv_head (lit "_Part")) in Heq.
  - destruct t2 as [|y t2].
    + symmetry in Heq. by pose proof (marker_first _ _ _ H2 Heq).
    + injection Heq as -> Heq. by destruct (IH t2 p1 p2) as [-> ->].
Qed.

(** C5 (amended): the name is a function of id, title and part and holds
    safe characters only.  Distinct chapters get distinct names when their
    fields are plain: every character is safe, the id holds no underscore
    and starts with no space, and the part holds no "_Part" and ends with
    no space. *)
Theorem batch_filename_distinct (id1 title1 part1 id2 title2 part2 : str) :
  Forall (fun c => safe_char c = true) (batch_filename id1 title1 part1)
  /\ (plain_fields id1 title1 part1 -> plain_fields id2 title2 part2 ->
      (id1, title1, part1) <> (id2, title2, part2) ->
      batch_filename id1 title1 part1 <> batch_filename id2 title2 part2).
Proof.
  split; [apply batch_filename_safe|].
  intros H1 H2 Hne. rewrite !batch_filename_plain by assumption. intros Heq.
  destruct H1 as (_ & _ & _ & Hu1 & _ & Hm1 & _).
  destruct H2 as (_ & _ & _ & Hu2 & _ & Hm2 & _).
  apply app_cons_unique in Heq as [-> Heq]; [|done|done].
  apply marker_unique in Heq as [-> ->]; [|done|done].
  by apply Hne.
Qed.

Lemma batch_filename_distinct_witness :
  plain_fields (lit "1") (lit "Intro - part_one") (lit "1")
  /\ plain_fields (lit "2") (lit "Intro - part_one") (lit "1")
  /\ batch_filename (lit "1") (lit "Intro - part_one") (lit "1")
     <> batch_filename (lit "2") (lit "Intro - part_one") (lit "1").
Proof.
  assert (H1 : plain_fields (lit "1") (lit "Intro - part_one") (lit "1")).
  { repeat split; try (repeat constructor); try reflexivity.
    intros H. cbn in H. intuition discriminate. }
  assert (H2 : plain_fields (lit "2") (lit "Intro - part_one") (lit "1")).
  { repeat split; try (repeat constructor); try reflexivity.
    intros H. cbn in H. intuition discriminate. }
  split; [exact H1|]. split; [exact H2|].
  apply (batch_filename_distinct (lit "1") (lit "Intro - part_one") (lit "1")
           (lit "2") (lit "Intro - part_one") (lit "1")); [exact H1|exact H2|].
  discriminate.
Defined.

(** C5 as stated fails: two chapters whose titles differ in an unsafe
    character only get the same file name; so do chapters that differ in
    where an underscore or "_Part" stands, or in a space before the id or
    after the part. *)
Lemma batch_filename_collision :
  ((lit "1", lit "Intro?", lit "1") <> (lit "1", lit "Intro!", lit "1")
   /\ batch_filename (lit "1") (lit "Intro?") (lit "1")
      = batch_filename (lit "1") (lit "Intro!") (lit "1"))
  /\ ((lit "1_2", lit "3", lit "4") <> (lit "1", lit "2_3", lit "4")
      /\ batch_filename (lit "1_2") (lit "3") (lit "4")
         = batch_filename (lit "1") (lit "2_3") (lit "4"))
  /\ ((lit "1", lit "a", lit "b_Partc") <> (lit "1", lit "a_Partb", lit "c")
      /\ batch_filename (lit "1") (lit "a") (lit "b_Partc")
         = batch_filename (lit "1") (lit "a_Partb") (lit "c"))
  /\ ((lit " 1", lit "a", lit "1") <> (lit "1", lit "a", lit "1 ")
      /\ batch_filename (lit " 1") (lit "a") (lit "1")
         = batch_filename (lit "1") (lit "a") (lit "1 ")).
Proof. repeat split; (discriminate || reflexivity). Qed.

(** A letter with an accent is alphanumeric and stays in the name; the
    letter here is U+00E9. *)
Example accented_letter_kept :
  batch_filename (lit "1") (lit "caf" ++ [ascii_of_N 233]) (lit "1")
  = lit "1_caf" ++ [ascii_of_N 233] ++ lit "_Part1".
Proof. reflexivity. Qed.

End FileNames.

(* ===================================================================== *)
(** * Subtitle blocks                                                     *)
(* ===================================================================== *)

Section Blocks.

Lemma adjust_loop_filter (offset_ms : Z) (blocks : list str) :
  forall (adjusted_blocks : list str) (current_index : Z),
    adjust_loop blocks offset_ms adjusted_blocks current_index
    = adjusted_blocks
        ++ number_blocks offset_ms current_index
             (List.filter block_retained blocks).
Proof.
  induction blocks as [|block rest IH]; intros acc idx.
  - simpl. by rewrite app_nil_r.
  - cbn [adjust_loop List.filter]. unfold block_retained.
    fold (block_lines block).
    destruct (is_nil (strip block)) eqn:Hnil.
    { assert (Hs : strip block = []) by by destruct (strip block).
      unfold block_lines at 1. rewrite Hs. simpl. apply IH. }
    destruct (Nat.ltb_spec (length (block_lines block)) 2) as [Hlt|Hge].
    { destruct (Nat.leb_spec 2 (length (block_lines block))); [lia|].
      simpl. apply IH. }
    destruct (Nat.leb_spec 2 (length (block_lines block))) as [_|?]; [|lia].
    destruct (Nat.ltb_spec 1 (length (block_lines block))) as [_|?]; [|lia].
    cbn [andb].
    destruct (contains arrow (nth 1 (block_lines block) [])); [|apply IH].
    rewrite IH. cbn [number_blocks]. rewrite <- app_assoc. reflexivity.
Qed.




End Blocks.

(* ===================================================================== *)
(** * Composition of the master subtitle                                  *)
(* ===================================================================== *)

Section Compose.

Variable w : world.



End Compose.


(* ===================================================================== *)
(** * The merge loop                                                      *)
(* ===================================================================== *)

Section MergeLoop.

Lemma notify_logged (cb : bool) (ev : event) (st : state) :
  notify cb ev st = (Ok tt, logged cb ev st).
Proof. unfold logged, notify. by destruct cb. Qed.

Lemma logged_world (cb : bool) (ev : event) (st : state) :
  st_world (logged cb ev st) = st_world st.
Proof. unfold logged, notify. by destruct cb. Qed.

Lemma logged_log (cb : bool) (ev : event) (st : state) :
  st_log (logged cb ev st) = st_log st ++ (if cb then [ev] else []).
Proof. unfold logged, notify. destruct cb; simpl; by rewrite ?app_nil_r. Qed.

(** One iteration of the loop. *)
Lemma merge_loop_cons (cb : bool) (total idx : nat) (af : audio_file)
    (rest : list audio_file) (combined : AudioSegment)
    (info : list chapter_mark) (pos : Z) (st : state) :
  merge_loop cb total idx (af :: rest) combined info pos st
  = let st1 := logged cb (EvAdd idx total (af_title af)) st in
    if path_exists (st_world st) (af_path af)
    then
      match from_mp3 (st_world st) (af_path af) with
      | Raise e => (Raise e, st1)
      | Ok segment =>
          merge_loop cb total (S idx) rest (segment_add combined segment)
            (info ++
               [{| cm_id := af_id af; cm_title := af_title af;
                   start_ms := pos;
                   end_ms := pos + Z.of_N (seg_len segment);
                   duration_ms := Z.of_N (seg_len segment) |}])
            (pos + Z.of_N (seg_len segment)) st1
      end
    else
      merge_loop cb total (S idx) rest combined info pos
        (logged cb (EvSkipMissing (af_path af)) st1).
Proof.
  cbn [merge_loop]. unfold mbind, M_bind, bind.
  rewrite notify_logged. unfold get_world at 1.
  rewrite logged_world.
  destruct (path_exists (st_world st) (af_path af)); cbn [negb].
  - unfold lift. by destruct (from_mp3 (st_world st) (af_path af)).
  - by rewrite notify_logged.
Qed.

Lemma merge_loop_nil (cb : bool) (total idx : nat) (combined : AudioSegment)
    (info : list chapter_mark) (pos : Z) (st : state) :
  merge_loop cb total idx [] combined info pos st
  = (Ok (combined, info, pos), st).
Proof. reflexivity. Qed.

Lemma chained_from_snoc (info : list chapter_mark) :
  forall (pos : Z) (b : chapter_mark),
    chained_from pos info ->
    start_ms b = pos + sum_Z (map duration_ms info) ->
    0 <= duration_ms b -> end_ms b = start_ms b + duration_ms b ->
    chained_from pos (info ++ [b]).
Proof.
  induction info as [|a info IH]; intros pos b Hc Hs Hd He; simpl in *.
  - rewrite Z.add_0_r in Hs. rewrite Hs in He. done.
  - destruct Hc as (Ha & Hda & Hea & Hc). repeat split; try done.
    apply IH; try done. rewrite Hs, Hea. lia.
Qed.

Lemma sum_Z_app (a b : list Z) : sum_Z (a ++ b) = sum_Z a + sum_Z b.
Proof. unfold sum_Z. induction a as [|x a IH]; simpl; lia. Qed.

(** Whatever the loop returns is chained from 0 and ends at the returned
    position, whatever the callback. *)
Lemma merge_loop_chained_any (cb : callback) (total : nat)
    (fs : list audio_file) :
  forall (idx : nat) (combined : AudioSegment) (info : list chapter_mark)
         (pos : Z) (st : state) combined' info' pos' st',
    merge_loop cb total idx fs combined info pos st
    = (Ok (combined', info', pos'), st') ->
    chained_from 0 info -> pos = sum_Z (map duration_ms info) ->
    chained_from 0 info' /\ pos' = sum_Z (map duration_ms info').
Proof.
  induction fs as [|af rest IH];
    intros idx combined info pos st combined' info' pos' st' Hrun Hc Hp.
  - cbn in Hrun. by injection Hrun as _ <- <- _.
  - cbn [merge_loop] in Hrun. unfold mbind, M_bind, bind in Hrun.
    destruct (notify cb _ st) as [[[]|e] st1]; [|discriminate].
    unfold get_world in Hrun.
    destruct (negb (path_exists (st_world st1) (af_path af))).
    + destruct (notify cb _ st1) as [[[]|e] st2]; [|discriminate].
      eapply IH; eauto.
    + unfold lift in Hrun.
      destruct (from_mp3 (st_world st1) (af_path af)) as [segment|e];
        [|discriminate].
      eapply IH; [exact Hrun| |].
      * apply chained_from_snoc; simpl; try done; lia.
      * rewrite map_app, sum_Z_app. simpl. lia.
Qed.

End MergeLoop.

(* ===================================================================== *)
(** * Chained boundaries                                                  *)
(* ===================================================================== *)

Section Chained.

Lemma chained_lookup (info : list chapter_mark) :
  forall (pos : Z) (i : nat) (b : chapter_mark),
    chained_from pos info -> info !! i = Some b ->
    start_ms b = pos + sum_Z (map duration_ms (take i info))
    /\ end_ms b = start_ms b + duration_ms b
    /\ 0 <= duration_ms b.
Proof.
  induction info as [|a info IH]; intros pos i b Hc Hi; [done|].
  destruct Hc as (Ha & Hda & Hea & Hc). destruct i as [|i]; simpl in *.
  - injection Hi as <-. lia.
  - destruct (IH _ _ _ Hc Hi) as (Hs & He & Hd). lia.
Qed.

Lemma chained_durations (info : list chapter_mark) :
  forall pos, chained_from pos info -> Forall (fun d => 0 <= d) (map duration_ms info).
Proof.
  induction info as [|a info IH]; intros pos Hc; simpl; constructor.
  - apply Hc.
  - apply (IH (end_ms a)), Hc.
Qed.

Lemma sum_Z_take_mono (l : list Z) :
  Forall (fun d => 0 <= d) l ->
  forall i j, (i <= j)%nat -> sum_Z (take i l) <= sum_Z (take j l).
Proof.
  induction 1 as [|d l Hd _ IH]; intros i j Hij.
  - by rewrite !take_nil.
  - destruct i as [|i], j as [|j]; simpl; try lia.
    + assert (0 <= sum_Z (take j l)) by (specialize (IH 0%nat j); rewrite take_0 in IH; simpl in IH; lia).
      unfold sum_Z in *. lia.
    + specialize (IH i j). unfold sum_Z in *. lia.
Qed.

Lemma sum_Z_take_S (l : list Z) (i : nat) (d : Z) :
  l !! i = Some d -> sum_Z (take (S i) l) = sum_Z (take i l) + d.
Proof.
  intros Hi. rewrite (take_S_r _ _ _ Hi), sum_Z_app. simpl. lia.
Qed.

Lemma chained_last (info : list chapter_mark) :
  forall (pos : Z) (b : chapter_mark),
    chained_from pos info -> last info = Some b ->
    end_ms b = pos + sum_Z (map duration_ms info).
Proof.
  induction info as [|a info IH]; intros pos b Hc Hl; [done|].
  destruct Hc as (Ha & Hda & Hea & Hc).
  destruct info as [|a' info].
  - injection Hl as <-. simpl. lia.
  - change (last (a :: a' :: info)) with (last (a' :: info)) in Hl.
    rewrite (IH _ _ Hc Hl). simpl in *. lia.
Qed.

(** The invariants of a boundary list, in the terms of the specification. *)
Lemma chained_invariants (info : list chapter_mark) :
  chained_from 0 info ->
  (forall i b b', info !! i = Some b -> info !! S i = Some b' ->
                  start_ms b' = end_ms b)
  /\ (forall b, head info = Some b -> start_ms b = 0)
  /\ (forall i j bi bj, (i <= j)%nat ->
        info !! i = Some bi -> info !! j = Some bj ->
        start_ms bi <= start_ms bj /\ end_ms bi <= end_ms bj
        /\ start_ms bi <= end_ms bi)
  /\ (forall b, last info = Some b ->
        end_ms b = sum_Z (map duration_ms info)).
Proof.
  intros Hc.
  pose proof (chained_durations _ _ Hc) as Hdur.
  split; [|split; [|split]].
  - intros i b b' Hi Hi'.
    destruct (chained_lookup _ _ _ _ Hc Hi) as (Hs & He & _).
    destruct (chained_lookup _ _ _ _ Hc Hi') as (Hs' & _ & _).
    rewrite <- firstn_map in Hs, Hs'.
    rewrite (sum_Z_take_S _ _ (duration_ms b)) in Hs'
      by by rewrite list_lookup_fmap, Hi.
    lia.
  - intros b Hb. destruct info; [done|]. injection Hb as <-. apply Hc.
  - intros i j bi bj Hij Hi Hj.
    destruct (chained_lookup _ _ _ _ Hc Hi) as (Hs & He & Hd).
    destruct (chained_lookup _ _ _ _ Hc Hj) as (Hs' & He' & Hd').
    rewrite <- firstn_map in Hs, Hs'.
    destruct (decide (i = j)) as [->|Hne].
    + assert (bi = bj) by congruence. subst bj. lia.
    + pose proof (sum_Z_take_mono _ Hdur (S i) j ltac:(lia)) as Hmono.
      rewrite (sum_Z_take_S _ _ (duration_ms bi)) in Hmono
        by by rewrite list_lookup_fmap, Hi.
      lia.
  - intros b Hl. by rewrite (chained_last _ _ _ Hc Hl).
Qed.

End Chained.

(* ===================================================================== *)
(** * The runs of merge_audiobook                                         *)
(* ===================================================================== *)

Section MergeRuns.

Lemma failure_lookup (message : str) :
  failure message !! lit "success" = Some (VBool false)
  /\ failure message !! lit "error" = Some (VStr message).
Proof. by vm_compute. Qed.

Lemma merged_lookup (output_path : str) (info : list chapter_mark) (pos : Z) :
  merged output_path info pos !! lit "success" = Some (VBool true)
  /\ merged output_path info pos !! lit "output_path" = Some (VStr output_path)
  /\ merged output_path info pos !! lit "total_chapters"
     = Some (VInt (Z.of_nat (length info)))
  /\ merged output_path info pos !! lit "total_duration_ms" = Some (VInt pos)
  /\ merged output_path info pos !! lit "chapter_info" = Some (VChapters info).
Proof. by vm_compute. Qed.

Lemma add_chapter_markers_run (audio_path : str) (info : list chapter_mark)
    (st : state) :
  add_chapter_markers audio_path info st
  = match add_chapter_markers_on (st_world st) audio_path info with
    | Raise e => (Raise e, st)
    | Ok w' => (Ok tt, {| st_world := w'; st_log := st_log st |})
    end.
Proof.
  unfold add_chapter_markers, try_except, mbind, M_bind, bind, get_world, lift,
    put_world, raise.
  by destruct (add_chapter_markers_on (st_world st) audio_path info).
Qed.

(** The body of the [try] block, step by step. *)
Lemma merge_body_run (fs : list audio_file) (out : str) (cb : bool)
    (st : state) :
  merge_body fs out cb st
  = match merge_loop cb (length fs) 1 fs segment_empty [] 0
            (logged cb (EvStart (length fs)) st) with
    | (Raise e, st1) => (Raise e, st1)
    | (Ok (combined, info, pos), st1) =>
        if (length info =? 0)%nat then (Ok (failure no_valid_audio), st1)
        else
          let st2 := logged cb (EvSaving (length info)) st1 in
          match export (st_world st2) combined out with
          | Raise e => (Raise e, st2)
          | Ok w' =>
              let st3 := tagging_state cb info w' st2 in
              match add_chapter_markers_on (st_world st3) out info with
              | Raise e => (Raise e, st3)
              | Ok w'' =>
                  (Ok (merged out info pos),
                   logged cb (EvFile out)
                     (logged cb (EvDuration pos)
                        (logged cb (EvTotal (length info))
                           (logged cb EvDone
                              {| st_world := w''; st_log := st_log st3 |}))))
              end
          end
    end.
Proof.
  unfold merge_body, mbind, M_bind, bind. rewrite notify_logged.
  destruct (merge_loop cb (length fs) 1 fs segment_empty [] 0
              (logged cb (EvStart (length fs)) st))
    as [[[[combined info] pos]|e] st1]; [|reflexivity].
  destruct (length info =? 0)%nat; [reflexivity|].
  rewrite notify_logged. unfold get_world at 1, lift at 1. cbv zeta.
  destruct (export (st_world (logged cb (EvSaving (length info)) st1))
              combined out) as [w'|e]; [|reflexivity].
  unfold put_world at 1. rewrite notify_logged.
  rewrite add_chapter_markers_run. fold (tagging_state cb info w'
    (logged cb (EvSaving (length info)) st1)).
  destruct (add_chapter_markers_on _ out info) as [w''|e]; [|reflexivity].
  by rewrite !notify_logged.
Qed.

(** [merge_audiobook] always returns a dictionary: either what the body
    returned, or the failure built by the handler. *)
Lemma merge_audiobook_run (fs : list audio_file) (out : str) (cb : bool)
    (st : state) :
  merge_audiobook fs out cb st
  = match merge_body fs out cb st with
    | (Ok d, st') => (Ok d, st')
    | (Raise e, st') =>
        (Ok (failure (exn_message e)), logged cb (EvError e) st')
    end.
Proof.
  unfold merge_audiobook, try_except.
  destruct (merge_body fs out cb st) as [[d|e] st']; [reflexivity|].
  unfold mbind, M_bind, bind. by rewrite notify_logged.
Qed.

(** A dictionary with 'success': True comes from the end of the body,
    whatever the callback. *)
Lemma merge_audiobook_success (fs : list audio_file) (out : str)
    (cb : callback) (st : state) (d : gmap str pyval) (st' : state) :
  merge_audiobook fs out cb st = (Ok d, st') ->
  d !! lit "success" = Some (VBool true) ->
  exists combined info pos st0 st1,
    merge_loop cb (length fs) 1 fs segment_empty [] 0 st0
    = (Ok (combined, info, pos), st1)
    /\ info <> [] /\ d = merged out info pos.
Proof.
  intros Hrun Hsuccess.
  assert (Hfail : forall message,
            d = failure message -> False).
  { intros message ->. destruct (failure_lookup message) as [Hf _].
    congruence. }
  revert Hrun. unfold merge_audiobook, try_except.
  destruct (merge_body fs out cb st) as [[d0|e] stb] eqn:Hbody.
  2:{ unfold mbind, M_bind, bind.
      destruct (notify cb (EvError e) stb) as [[[]|e'] st2]; [|discriminate].
      intros [= <- _]. by destruct (Hfail (exn_message e)). }
  intros [= -> _]. revert Hbody. unfold merge_body, mbind, M_bind, bind.
  destruct (notify cb _ st) as [[[]|e] st0]; [|discriminate].
  destruct (merge_loop cb _ _ _ _ _ _ st0)
    as [[[[combined info] pos]|e] st1] eqn:Hloop; [|discriminate].
  destruct (Nat.eqb_spec (length info) 0) as [Hz|Hnz].
  { intros [= <- _]. by destruct (Hfail no_valid_audio). }
  destruct (notify cb _ st1) as [[[]|e] st2]; [|discriminate].
  unfold get_world, lift.
  destruct (export (st_world st2) combined out) as [w'|e]; [|discriminate].
  unfold put_world.
  destruct (notify cb _ _) as [[[]|e] st3]; [|discriminate].
  destruct (add_chapter_markers out info st3) as [[[]|e] st4]; [|discriminate].
  do 4 (match goal with
        | |- context [notify cb ?ev ?s] =>
            destruct (notify cb ev s) as [[[]|?] ?]; [|discriminate]
        end).
  intros [= <- _]. exists combined, info, pos, st0, st1.
  split; [exact Hloop|]. split; [|reflexivity].
  intros ->. by apply Hnz.
Qed.

End MergeRuns.

(* ===================================================================== *)
(** * Properties of merge_audiobook                                       *)
(* ===================================================================== *)

Section MergeProperties.

(** C6: in every boundary list [merge_audiobook] returns, whatever the
    progress callback, each entry starts where the previous one ends, the
    first one starts at 0, the times never decrease, and the last entry
    ends at the reported total duration, which is the sum of the entries'
    durations. *)
Theorem boundaries_chain (fs : list audio_file) (out : str)
    (cb : callback) (st : state) (d : gmap str pyval) (st' : state) :
  merge_audiobook fs out cb st = (Ok d, st') ->
  d !! lit "success" = Some (VBool true) ->
  exists info total,
    d !! lit "chapter_info" = Some (VChapters info)
    /\ d !! lit "total_duration_ms" = Some (VInt total)
    /\ (forall i b b', info !! i = Some b -> info !! S i = Some b' ->
                       start_ms b' = end_ms b)
    /\ (forall b, head info = Some b -> start_ms b = 0)
    /\ (forall i j bi bj, (i <= j)%nat ->
          info !! i = Some bi -> info !! j = Some bj ->
          start_ms bi <= start_ms bj /\ end_ms bi <= end_ms bj
          /\ start_ms bi <= end_ms bi)
    /\ (exists b, last info = Some b /\ end_ms b = total)
    /\ total = sum_Z (map duration_ms info).
Proof.
  intros Hrun Hsuccess.
  destruct (merge_audiobook_success _ _ _ _ _ _ Hrun Hsuccess)
    as (combined & info & pos & st0 & st1 & Hloop & Hne & ->).
  destruct (merge_loop_chained_any _ _ _ _ _ _ _ _ _ _ _ _ Hloop I eq_refl)
    as [Hc ->].
  destruct (chained_invariants _ Hc) as (Hnext & Hfirst & Hmono & Hlast).
  destruct (merged_lookup out info (sum_Z (map duration_ms info)))
    as (_ & _ & _ & Htotal & Hinfo).
  exists info, (sum_Z (map duration_ms info)).
  repeat (split; [done|]). split; [|reflexivity].
  destruct (last info) as [b|] eqn:Hb.
  - exists b. split; [reflexivity|]. by apply Hlast.
  - apply last_None in Hb. by apply Hne in Hb.
Qed.



End MergeProperties.

(* ===================================================================== *)
(** * Progress callbacks that return normally                             *)
(* ===================================================================== *)

Section Callbacks.

(** A callback that returns normally behaves as a sink. *)
Lemma notify_quiet (cb : callback) (ev : event) (st : state) :
  quiet cb -> notify cb ev st = notify (has_callback cb) ev st.
Proof. destruct cb as [|call]; [done|]. intros Hq. cbn. by rewrite Hq. Qed.

Lemma merge_loop_quiet (cb : callback) (total : nat) (fs : list audio_file) :
  quiet cb ->
  forall idx combined info pos st,
    merge_loop cb total idx fs combined info pos st
    = merge_loop (has_callback cb) total idx fs combined info pos st.
Proof.
  intros Hq.
  induction fs as [|af rest IH]; intros idx combined info pos st; [done|].
  cbn [merge_loop]. unfold mbind, M_bind, bind.
  rewrite (notify_quiet cb) by done.
  destruct (notify (has_callback cb) _ st) as [[[]|e] st1]; [|done].
  unfold get_world.
  destruct (negb (path_exists (st_world st1) (af_path af))).
  - rewrite (notify_quiet cb) by done.
    destruct (notify (has_callback cb) _ st1) as [[[]|e] st2]; [|done].
    apply IH.
  - unfold lift. destruct (from_mp3 (st_world st1) (af_path af)); [|done].
    apply IH.
Qed.

Lemma merge_body_quiet (cb : callback) (fs : list audio_file) (out : str)
    (st : state) :
  quiet cb -> merge_body fs out cb st = merge_body fs out (has_callback cb) st.
Proof.
  intros Hq. unfold merge_body, mbind, M_bind, bind.
  rewrite (notify_quiet cb) by done.
  destruct (notify (has_callback cb) _ st) as [[[]|e] st0]; [|done].
  rewrite (merge_loop_quiet cb) by done.
  destruct (merge_loop (has_callback cb) _ _ _ _ _ _ st0)
    as [[[[combined info] pos]|e] st1]; [|done].
  destruct (length info =? 0)%nat; [done|].
  rewrite (notify_quiet cb) by done.
  destruct (notify (has_callback cb) _ st1) as [[[]|e] st2]; [|done].
  unfold get_world, lift.
  destruct (export (st_world st2) combined out) as [w'|e]; [|done].
  unfold put_world.
  rewrite (notify_quiet cb) by done.
  destruct (notify (has_callback cb) _ _) as [[[]|e] st3]; [|done].
  destruct (add_chapter_markers out info st3) as [[[]|e] st4]; [|done].
  do 4 (rewrite (notify_quiet cb) by done;
        match goal with
        | |- context [notify (callback_of_bool ?b) ?ev ?s] =>
            destruct (notify (callback_of_bool b) ev s) as [[[]|?] ?]; [|done]
        end).
  done.
Qed.

Lemma merge_audiobook_quiet (cb : callback) (fs : list audio_file)
    (out : str) (st : state) :
  quiet cb ->
  merge_audiobook fs out cb st = merge_audiobook fs out (has_callback cb) st.
Proof.
  intros Hq. unfold merge_audiobook, try_except.
  rewrite (merge_body_quiet cb) by done.
  destruct (merge_body fs out (has_callback cb) st) as [[d|e] st']; [done|].
  unfold mbind, M_bind, bind. by rewrite (notify_quiet cb) by done.
Qed.

Lemma quiet_of_bool (b : bool) : quiet b.
Proof. by destruct b. Qed.

End Callbacks.

(* ===================================================================== *)
(** * The frames add_chapter_markers writes                               *)
(* ===================================================================== *)

Section TagWriting.

Lemma chapter_element_id_inj (i j : nat) :
  chapter_element_id i = chapter_element_id j -> i = j.
Proof.
  unfold chapter_element_id. intros H.
  assert (H' : fmt_d 3 (Z.of_nat i) = fmt_d 3 (Z.of_nat j)).
  { injection H as H. exact H. }
  destruct (fmt_d_nonneg 3 (Z.of_nat i)) as (_ & _ & Hi); [lia|].
  destruct (fmt_d_nonneg 3 (Z.of_nat j)) as (_ & _ & Hj); [lia|].
  rewrite H' in Hi. lia.
Qed.

Lemma str_of_bytes_inj (a b : bytes) : str_of_bytes a = str_of_bytes b -> a = b.
Proof.
  destruct a as [a], b as [b]. unfold str_of_bytes. intros H.
  apply app_inv_head in H. apply app_inv_tail in H. by subst.
Qed.

Lemma chap_key_inj (i j : nat) : chap_key i = chap_key j -> i = j.
Proof.
  unfold chap_key. intros H. apply app_inv_head in H.
  by apply chapter_element_id_inj, str_of_bytes_inj.
Qed.

Lemma chap_key_not_toc (i : nat) : chap_key i <> toc_key.
Proof. unfold chap_key, toc_key, lit. simpl. discriminate. Qed.

Lemma chap_frame_key (idx : nat) (chapter : chapter_mark) :
  HashKey (chap_frame idx chapter) = chap_key idx.
Proof. reflexivity. Qed.

Lemma ctoc_frame_key (ids : list bytes) : HashKey (ctoc_frame ids) = toc_key.
Proof. reflexivity. Qed.

Lemma chap_loop_ids (info : list chapter_mark) :
  forall idx ids tags,
    fst (chap_loop idx info ids tags)
    = ids ++ map chapter_element_id (seq idx (length info)).
Proof.
  induction info as [|chapter rest IH]; intros idx ids tags; simpl.
  - by rewrite app_nil_r.
  - by rewrite IH, <- app_assoc.
Qed.

(** The loop leaves alone every key that is not the key of a chapter it
    numbers. *)
Lemma chap_loop_other_bounded (info : list chapter_mark) :
  forall idx ids tags key,
    (forall j, (idx <= j < idx + length info)%nat -> key <> chap_key j) ->
    snd (chap_loop idx info ids tags) !! key = tags !! key.
Proof.
  induction info as [|chapter rest IH]; intros idx ids tags key Hkey; simpl.
  - reflexivity.
  - rewrite IH by (intros j Hj; apply Hkey; simpl; lia).
    unfold tags_add. rewrite chap_frame_key.
    apply lookup_insert_ne. intros H. apply (Hkey idx); [simpl; lia|done].
Qed.

Lemma chap_loop_other (info : list chapter_mark) :
  forall idx ids tags key,
    (forall j, (idx <= j)%nat -> key <> chap_key j) ->
    snd (chap_loop idx info ids tags) !! key = tags !! key.
Proof.
  intros idx ids tags key Hkey. apply chap_loop_other_bounded.
  intros j Hj. apply Hkey. lia.
Qed.

Lemma chap_loop_lookup (info : list chapter_mark) :
  forall idx ids tags k chapter,
    info !! k = Some chapter ->
    snd (chap_loop idx info ids tags) !! chap_key (idx + k)
    = Some (chap_frame (idx + k) chapter).
Proof.
  induction info as [|c rest IH]; intros idx ids tags k chapter Hk; [done|].
  destruct k as [|k]; simpl in *.
  - injection Hk as ->. rewrite Nat.add_0_r.
    rewrite chap_loop_other.
    + unfold tags_add. rewrite chap_frame_key. apply lookup_insert_eq.
    + intros j Hj H. apply chap_key_inj in H. lia.
  - replace (idx + S k)%nat with (S idx + k)%nat by lia. by apply IH.
Qed.

(** The frames of the dictionary built from [before] and the boundaries. *)
Lemma tagged_toc (before : gmap str frame) (info : list chapter_mark) :
  tagged before info !! toc_key
  = Some (ctoc_frame (map chapter_element_id (seq 1 (length info)))).
Proof. unfold tagged, tags_add. rewrite ctoc_frame_key. apply lookup_insert_eq. Qed.

Lemma tagged_chapter (before : gmap str frame) (info : list chapter_mark)
    (k : nat) (chapter : chapter_mark) :
  info !! k = Some chapter ->
  tagged before info !! chap_key (S k) = Some (chap_frame (S k) chapter).
Proof.
  intros Hk. unfold tagged, tags_add. rewrite ctoc_frame_key.
  rewrite lookup_insert_ne
    by (intros H; symmetry in H; by apply chap_key_not_toc in H).
  by apply (chap_loop_lookup info 1 [] before k chapter).
Qed.


(** ** What [save] can write *)

Lemma chap_frame_writable (idx : nat) (chapter : chapter_mark) :
  frame_writable (chap_frame idx chapter) = mark_writable chapter.
Proof.
  unfold chap_frame, frame_writable, mark_writable.
  change (0 <=? 4294967295) with true.
  change (4294967295 <? 2 ^ 32) with true.
  by rewrite !andb_true_r.
Qed.

Lemma ctoc_frame_writable (ids : list bytes) :
  frame_writable (ctoc_frame ids) = (length ids <? 256)%nat.
Proof. unfold ctoc_frame, frame_writable. by rewrite length_map. Qed.

Lemma tags_add_writable (tags : gmap str frame) (f : frame) :
  tags_writable tags -> frame_writable f = true ->
  tags_writable (tags_add tags f).
Proof. intros Ht Hf. by apply map_Forall_insert_2. Qed.

Lemma chap_loop_writable (info : list chapter_mark) :
  forall idx ids tags,
    tags_writable tags -> forallb mark_writable info = true ->
    tags_writable (snd (chap_loop idx info ids tags)).
Proof.
  induction info as [|chapter rest IH]; intros idx ids tags Ht Hinfo; [done|].
  cbn [forallb] in Hinfo. apply andb_true_iff in Hinfo as [Hc Hrest].
  cbn [chap_loop]. apply IH; [|done].
  apply tags_add_writable; [done|]. by rewrite chap_frame_writable.
Qed.

(** The dictionary built from writable frames can be written exactly when
    there are fewer than 256 boundaries and their times fit 32 bits. *)
Lemma tagged_writable (before : gmap str frame) (info : list chapter_mark) :
  tags_writable before ->
  tags_writable (tagged before info)
  <-> (length info < 256)%nat /\ forallb mark_writable info = true.
Proof.
  intros Hbefore. split.
  - intros Hw. split.
    + pose proof (Hw _ _ (tagged_toc before info)) as Htoc.
      cbn beta in Htoc. rewrite ctoc_frame_writable in Htoc.
      rewrite length_map, length_seq in Htoc. by apply Nat.ltb_lt.
    + apply forallb_forall. intros chapter Hin.
      apply list_elem_of_In, list_elem_of_lookup in Hin as [k Hk].
      pose proof (Hw _ _ (tagged_chapter before info k chapter Hk)) as Hc.
      cbn beta in Hc. by rewrite chap_frame_writable in Hc.
  - intros [Hlen Hinfo]. unfold tagged.
    apply tags_add_writable; [by apply chap_loop_writable|].
    rewrite ctoc_frame_writable, length_map, length_seq. by apply Nat.ltb_lt.
Qed.

Lemma load_or_create_tags_ok (w : world) (audio_path : str)
    (audio : mp3_handle) :
  load_or_create_tags w audio_path = Ok audio ->
  handle_tags audio = tags_before w audio_path.
Proof.
  unfold load_or_create_tags, MP3, tags_before, handle_tags, add_tags.
  destruct (files w !! audio_path) as [[content|a [t|]|]|]; simpl;
    try discriminate; by intros [= <-].
Qed.

(** [add_chapter_markers] on a file system, step by step. *)
Lemma add_chapter_markers_on_run (w : world) (audio_path : str)
    (info : list chapter_mark) :
  add_chapter_markers_on w audio_path info
  = match files w !! audio_path with
    | Some (Mp3File audio _) =>
        save w audio_path audio (tagged (tags_before w audio_path) info)
    | _ => Raise MutagenError
    end.
Proof.
  unfold add_chapter_markers_on, tagged.
  destruct (load_or_create_tags w audio_path) as [audio|e] eqn:Hload.
  - rewrite (load_or_create_tags_ok _ _ _ Hload).
    pose proof (chap_loop_ids info 1 [] (tags_before w audio_path)) as Hids.
    destruct (chap_loop 1 info [] (tags_before w audio_path)) as [ids tags].
    cbn [fst snd app] in *. subst ids.
    revert Hload. unfold load_or_create_tags, MP3, add_tags.
    destruct (files w !! audio_path) as [[content|a [t|]|]|]; simpl;
      try discriminate; by intros [= <-].
  - revert Hload. unfold load_or_create_tags, MP3, add_tags.
    destruct (files w !! audio_path) as [[content|a [t|]|]|]; simpl;
      try discriminate; by intros [= <-].
Qed.

Lemma put_file_same (w : world) (p : str) (f : file) :
  files (put_file w p f) !! p = Some f.
Proof. unfold put_file. cbn [files]. apply lookup_insert_eq. Qed.

Lemma put_file_twice (w : world) (p : str) (f g : file) :
  put_file (put_file w p f) p g = put_file w p g.
Proof. unfold put_file. cbn. by rewrite insert_insert_eq. Qed.

(** Tagging a file that was just exported. *)
Lemma markers_on_export_run (w : world) (out : str) (combined : AudioSegment)
    (info : list chapter_mark) :
  add_chapter_markers_on (put_file w out (Mp3File combined None)) out info
  = if decide (out ∈ tag_denied w) then Raise PermissionError
    else if (length info <? 256)%nat && forallb mark_writable info
    then Ok (put_file w out (Mp3File combined (Some (tagged ∅ info))))
    else Raise FrameValueError.
Proof.
  rewrite add_chapter_markers_on_run. unfold tags_before.
  rewrite put_file_same. unfold save.
  change (tag_denied (put_file w out (Mp3File combined None)))
    with (tag_denied w).
  destruct (decide (out ∈ tag_denied w)); [done|].
  pose proof (tagged_writable ∅ info (map_Forall_empty _)) as Hiff.
  destruct (decide (tags_writable (tagged ∅ info))) as [Hw|Hw].
  - apply Hiff in Hw as [Hlen ->]. apply Nat.ltb_lt in Hlen. rewrite Hlen.
    cbn [andb]. by rewrite put_file_twice.
  - destruct ((length info <? 256)%nat && forallb mark_writable info) eqn:Hb;
      [|done].
    apply andb_true_iff in Hb as [Hlen Hinfo]. apply Nat.ltb_lt in Hlen.
    destruct Hw. by apply Hiff.
Qed.

Lemma mark_writable_spec (chapter : chapter_mark) :
  mark_writable chapter = true
  <-> 0 <= start_ms chapter < 2 ^ 32 /\ 0 <= end_ms chapter < 2 ^ 32.
Proof.
  unfold mark_writable.
  rewrite !andb_true_iff, !Z.leb_le, !Z.ltb_lt. lia.
Qed.

(** Chained boundaries fit 32 bits exactly when their total does. *)
Lemma chained_writable (info : list chapter_mark) :
  chained_from 0 info ->
  forallb mark_writable info = true
  <-> sum_Z (map duration_ms info) < 2 ^ 32.
Proof.
  intros Hc. pose proof (chained_durations _ _ Hc) as Hdur. split.
  - intros Hall. destruct (last info) as [b|] eqn:Hb.
    + rewrite <- (Z.add_0_l (sum_Z _)), <- (chained_last _ _ _ Hc Hb).
      apply last_Some in Hb as [l' ->].
      rewrite forallb_app in Hall. apply andb_true_iff in Hall as [_ Hall].
      cbn [forallb] in Hall. rewrite andb_true_r in Hall.
      apply mark_writable_spec in Hall. lia.
    + apply last_None in Hb. subst info. done.
  - intros Htotal. apply forallb_forall. intros b Hin.
    apply list_elem_of_In, list_elem_of_lookup in Hin as [i Hi].
    destruct (chained_lookup _ _ _ _ Hc Hi) as (Hs & He & Hd).
    rewrite <- firstn_map in Hs.
    pose proof (sum_Z_take_mono _ Hdur 0 i ltac:(lia)) as H0.
    pose proof (sum_Z_take_mono _ Hdur (S i) (length info) ltac:(apply lookup_lt_Some in Hi; lia)) as H1.
    rewrite (sum_Z_take_S _ _ (duration_ms b)) in H1
      by by rewrite list_lookup_fmap, Hi.
    rewrite (take_ge (map duration_ms info) (length info)) in H1
      by (rewrite length_map; lia).
    rewrite take_0 in H0. change (sum_Z []) with 0 in H0.
    apply mark_writable_spec. lia.
Qed.

End TagWriting.

(* ===================================================================== *)
(** * The runs of merge_audiobook, case by case                           *)
(* ===================================================================== *)

Section MissingChapters.

Lemma decodable_segment (w : world) (af : audio_file) :
  decodable w af -> path_exists w (af_path af) = true ->
  from_mp3 w (af_path af) = Ok (decoded_segment w af).
Proof.
  intros Hd Hex. destruct (Hd Hex) as [segment Hs].
  unfold decoded_segment. by rewrite Hs.
Qed.

(** With decodable files the loop does not raise: it returns one boundary
    per existing file and tells the callback about every missing one. *)
Lemma merge_loop_ok (cb : bool) (total : nat) (fs : list audio_file) :
  forall (idx : nat) (combined : AudioSegment) (info : list chapter_mark)
         (pos : Z) (st : state),
    Forall (decodable (st_world st)) fs ->
    exists st',
      merge_loop cb total idx fs combined info pos st
      = (Ok (combined_from (st_world st) combined
               (existing_files (st_world st) fs),
             info ++ marks_from (st_world st) pos
                       (existing_files (st_world st) fs),
             pos + sum_Z (map (decoded_ms (st_world st))
                            (existing_files (st_world st) fs))), st')
      /\ st_world st' = st_world st
      /\ exists extra,
           st_log st' = st_log st ++ extra
           /\ (cb = true ->
               forall af, In af fs ->
                 path_exists (st_world st) (af_path af) = false ->
                 In (EvSkipMissing (af_path af)) extra).
Proof.
  induction fs as [|af rest IH]; intros idx combined info pos st Hdec.
  - exists st. rewrite merge_loop_nil. simpl.
    rewrite app_nil_r, Z.add_0_r. split; [done|]. split; [done|].
    exists []. rewrite app_nil_r. split; [done|]. intros _ af [].
  - apply Forall_cons in Hdec as [Hd Hdec].
    rewrite merge_loop_cons. cbv zeta. cbn [existing_files List.filter].
    fold (existing_files (st_world st) rest).
    destruct (path_exists (st_world st) (af_path af)) eqn:Hex.
    + rewrite (decodable_segment _ _ Hd Hex).
      set (st1 := logged cb (EvAdd idx total (af_title af)) st).
      assert (Hw1 : st_world st1 = st_world st) by apply logged_world.
      destruct (IH (S idx) (segment_add combined (decoded_segment (st_world st) af))
                  (info ++
                     [{| cm_id := af_id af; cm_title := af_title af;
                         start_ms := pos;
                         end_ms := pos + Z.of_N (seg_len (decoded_segment (st_world st) af));
                         duration_ms := Z.of_N (seg_len (decoded_segment (st_world st) af)) |}])
                  (pos + Z.of_N (seg_len (decoded_segment (st_world st) af))) st1)
        as (st' & Hrun & Hw & extra & Hlog & Hskip).
      { by rewrite Hw1. }
      rewrite Hw1 in Hrun, Hw, Hskip.
      exists st'. rewrite Hrun. cbn [marks_from map sum_Z fold_right combined_from fold_left].
      fold (decoded_ms (st_world st) af).
      split; [|split; [done|]].
      * unfold combined_from, sum_Z. rewrite <- app_assoc. cbn [app].
        do 2 f_equal. f_equal. lia.
      * exists ((if cb then [EvAdd idx total (af_title af)] else []) ++ extra).
        split.
        -- rewrite Hlog. unfold st1. by rewrite logged_log, <- app_assoc.
        -- intros Hcb af' [<-|Hin] Hmiss; [congruence|].
           apply in_or_app. right. by apply Hskip.
    + set (st1 := logged cb (EvSkipMissing (af_path af))
                    (logged cb (EvAdd idx total (af_title af)) st)).
      assert (Hw1 : st_world st1 = st_world st)
        by (unfold st1; by rewrite !logged_world).
      destruct (IH (S idx) combined info pos st1)
        as (st' & Hrun & Hw & extra & Hlog & Hskip).
      { by rewrite Hw1. }
      rewrite Hw1 in Hrun, Hw, Hskip.
      exists st'. rewrite Hrun. split; [done|]. split; [done|].
      exists ((if cb then [EvAdd idx total (af_title af)] else [])
                ++ (if cb then [EvSkipMissing (af_path af)] else []) ++ extra).
      split.
      * rewrite Hlog. unfold st1. by rewrite !logged_log, <- !app_assoc.
      * intros Hcb af' [<-|Hin] Hmiss.
        -- rewrite Hcb. apply in_or_app. right. by left.
        -- apply in_or_app. right. apply in_or_app. right. by apply Hskip.
Qed.

(** The loop stops at the first listed file that exists and cannot be
    decoded. *)
Lemma merge_loop_raises (cb : bool) (total : nat) (pre : list audio_file) :
  forall idx combined info pos st af post e,
    Forall (decodable (st_world st)) pre ->
    path_exists (st_world st) (af_path af) = true ->
    from_mp3 (st_world st) (af_path af) = Raise e ->
    exists st',
      merge_loop cb total idx (pre ++ af :: post) combined info pos st
      = (Raise e, st').
Proof.
  induction pre as [|a pre IH];
    intros idx combined info pos st af post e Hdec Hex Hraise.
  - cbn [app]. rewrite merge_loop_cons. cbv zeta. rewrite Hex, Hraise. eauto.
  - apply Forall_cons in Hdec as [Ha Hdec].
    cbn [app]. rewrite merge_loop_cons. cbv zeta.
    destruct (path_exists (st_world st) (af_path a)) eqn:Hexa.
    + rewrite (decodable_segment _ _ Ha Hexa).
      apply IH; by rewrite ?logged_world.
    + apply IH; by rewrite ?logged_world.
Qed.

(** The loop only reads the file system. *)
Lemma merge_loop_world (cb : bool) (total : nat) (fs : list audio_file) :
  forall idx combined info pos st,
    st_world (snd (merge_loop cb total idx fs combined info pos st))
    = st_world st.
Proof.
  induction fs as [|af rest IH]; intros idx combined info pos st; [done|].
  rewrite merge_loop_cons. cbv zeta.
  destruct (path_exists (st_world st) (af_path af)).
  - destruct (from_mp3 (st_world st) (af_path af)) as [segment|e].
    + by rewrite IH, logged_world.
    + apply logged_world.
  - by rewrite IH, !logged_world.
Qed.

(** When some listed file cannot be decoded, there is a first one. *)
Lemma first_undecodable (w : world) (fs : list audio_file) :
  ~ Forall (decodable w) fs ->
  exists pre af post,
    fs = pre ++ af :: post
    /\ Forall (decodable w) pre
    /\ path_exists w (af_path af) = true
    /\ from_mp3 w (af_path af) = Raise CouldntDecodeError.
Proof.
  induction fs as [|af rest IH]; intros Hnot.
  - destruct Hnot. constructor.
  - destruct (path_exists w (af_path af)) eqn:Hex.
    + destruct (from_mp3 w (af_path af)) as [segment|e] eqn:Hfrom.
      * assert (Hd : decodable w af) by (intros _; eauto).
        destruct IH as (pre & a & post & -> & Hpre & Ha & Hraise).
        { intros Hrest. apply Hnot. by constructor. }
        exists (af :: pre), a, post. repeat split; try done. by constructor.
      * exists [], af, rest. repeat split; try done.
        revert Hex Hfrom. unfold path_exists, from_mp3.
        destruct (files w !! af_path af) as [[content|a t|]|];
          try discriminate; by intros _ [= <-].
    + assert (Hd : decodable w af) by (intros H; congruence).
      destruct IH as (pre & a & post & -> & Hpre & Ha & Hraise).
      { intros Hrest. apply Hnot. by constructor. }
      exists (af :: pre), a, post. repeat split; try done. by constructor.
Qed.

Lemma marks_from_length (w : world) (l : list audio_file) :
  forall pos, length (marks_from w pos l) = length l.
Proof. induction l as [|af l IH]; intros pos; simpl; [done|]. by rewrite IH. Qed.

Lemma marks_from_chained (w : world) (l : list audio_file) :
  forall pos, chained_from pos (marks_from w pos l).
Proof.
  induction l as [|af l IH]; intros pos; simpl; [done|].
  repeat split; try done. unfold decoded_ms. lia.
Qed.

Lemma marks_from_fields (w : world) (l : list audio_file) :
  forall pos,
    map cm_id (marks_from w pos l) = map af_id l
    /\ map cm_title (marks_from w pos l) = map af_title l
    /\ map duration_ms (marks_from w pos l) = map (decoded_ms w) l.
Proof.
  induction l as [|af l IH]; intros pos; simpl; [done|].
  destruct (IH (pos + decoded_ms w af)) as (-> & -> & ->). done.
Qed.

(** The boundaries of a merge fit the chapter frames exactly when the total
    duration is below 2^32 ms. *)
Lemma marks_from_writable (w : world) (l : list audio_file) :
  forallb mark_writable (marks_from w 0 l)
  = (sum_Z (map (decoded_ms w) l) <? 2 ^ 32).
Proof.
  destruct (marks_from_fields w l 0) as (_ & _ & <-).
  pose proof (chained_writable _ (marks_from_chained w l 0)) as Hiff.
  destruct (forallb mark_writable (marks_from w 0 l)).
  - symmetry. apply Z.ltb_lt. by apply Hiff.
  - symmetry. apply Z.ltb_ge. apply Z.le_ngt. intros H.
    apply Hiff in H. discriminate.
Qed.

Lemma logged_keeps (cb : bool) (ev x : event) (st : state) :
  In x (st_log st) -> In x (st_log (logged cb ev st)).
Proof. intros H. rewrite logged_log. apply in_or_app. by left. Qed.

(** The run of [merge_audiobook] on decodable files, read off the file
    system. *)
Lemma merge_audiobook_decodable (fs : list audio_file) (out : str)
    (cb : bool) (st : state) :
  let w := st_world st in
  let survivors := existing_files w fs in
  let info := marks_from w 0 survivors in
  let total := sum_Z (map (decoded_ms w) survivors) in
  Forall (decodable w) fs ->
  exists st',
    merge_audiobook fs out cb st
    = (Ok (match survivors with
           | [] => failure no_valid_audio
           | _ :: _ =>
               if decide (out ∈ write_denied w)
               then failure (exn_message PermissionError)
               else if decide (out ∈ tag_denied w)
               then failure (exn_message PermissionError)
               else if (length survivors <? 256)%nat && (total <? 2 ^ 32)
               then merged out info total
               else failure (exn_message FrameValueError)
           end), st')
    /\ (cb = true ->
        forall af, In af fs -> path_exists w (af_path af) = false ->
                   In (EvSkipMissing (af_path af)) (st_log st')).
Proof.
  intros w survivors info total Hdec.
  set (st0 := logged cb (EvStart (length fs)) st).
  assert (Hw0 : st_world st0 = w) by apply logged_world.
  destruct (merge_loop_ok cb (length fs) fs 1 segment_empty [] 0 st0)
    as (st1 & Hloop & Hw1 & extra & Hlog & Hskip).
  { by rewrite Hw0. }
  rewrite Hw0 in Hloop, Hw1, Hskip. cbn [app] in Hloop.
  fold survivors in Hloop. fold info in Hloop. rewrite Z.add_0_l in Hloop.
  fold total in Hloop.
  assert (Hlogged : cb = true ->
            forall af, In af fs -> path_exists w (af_path af) = false ->
                       In (EvSkipMissing (af_path af)) (st_log st1)).
  { intros Hcb af Hin Hmiss. rewrite Hlog. apply in_or_app. right.
    by apply Hskip. }
  assert (Hlen : length info = length survivors) by apply marks_from_length.
  rewrite merge_audiobook_run, merge_body_run. fold st0. rewrite Hloop.
  destruct (Nat.eqb_spec (length info) 0) as [Hz|Hnz].
  { exists st1. rewrite Hlen in Hz.
    destruct survivors; [done | discriminate]. }
  destruct survivors as [|af0 rest] eqn:Hsurv; [by rewrite Hlen in Hnz|].
  rewrite <- Hsurv in *. clear Hnz.
  cbv zeta. rewrite logged_world, Hw1. unfold export.
  destruct (decide (out ∈ write_denied w)).
  { eexists. split; [reflexivity|]. intros Hcb af Hin Hmiss.
    do 2 apply logged_keeps. by apply Hlogged. }
  unfold tagging_state at 1. rewrite logged_world. cbn [st_world].
  rewrite markers_on_export_run.
  destruct (decide (out ∈ tag_denied w)).
  { eexists. split; [reflexivity|]. intros Hcb af Hin Hmiss.
    apply logged_keeps. unfold tagging_state. do 2 apply logged_keeps.
    by apply Hlogged. }
  unfold info at 1 2. rewrite marks_from_writable. fold total. fold info.
  rewrite Hlen.
  destruct ((length survivors <? 256)%nat && (total <? 2 ^ 32)).
  - eexists. split; [reflexivity|]. intros Hcb af Hin Hmiss.
    do 4 apply logged_keeps. cbn [st_log]. unfold tagging_state.
    do 2 apply logged_keeps. by apply Hlogged.
  - eexists. split; [reflexivity|]. intros Hcb af Hin Hmiss.
    apply logged_keeps. unfold tagging_state. do 2 apply logged_keeps.
    by apply Hlogged.
Qed.

(** The run of [merge_audiobook] when a listed file exists and cannot be
    decoded. *)
Lemma merge_audiobook_undecodable (fs : list audio_file) (out : str)
    (cb : bool) (st : state) :
  ~ Forall (decodable (st_world st)) fs ->
  exists st',
    merge_audiobook fs out cb st
    = (Ok (failure (exn_message CouldntDecodeError)), st')
    /\ st_world st' = st_world st.
Proof.
  intros Hnot.
  destruct (first_undecodable _ _ Hnot)
    as (pre & af & post & -> & Hpre & Hex & Hraise).
  set (n := length (pre ++ af :: post)).
  set (st0 := logged cb (EvStart n) st).
  assert (Hw0 : st_world st0 = st_world st) by apply logged_world.
  destruct (merge_loop_raises cb n pre 1 segment_empty [] 0 st0
              af post CouldntDecodeError) as [st1 Hloop];
    rewrite ?Hw0; try done.
  pose proof (merge_loop_world cb n (pre ++ af :: post) 1 segment_empty [] 0
                st0) as Hw.
  rewrite Hloop in Hw. cbn [snd] in Hw.
  eexists. rewrite merge_audiobook_run, merge_body_run. fold n. fold st0.
  rewrite Hloop. split; [reflexivity|]. by rewrite logged_world, Hw.
Qed.

(** The run of [merge_audiobook] when some listed file exists and nothing
    fails. *)
Lemma merge_audiobook_succeeds (fs : list audio_file) (out : str) (cb : bool)
    (st : state) :
  Forall (decodable (st_world st)) fs ->
  existing_files (st_world st) fs <> [] ->
  out ∉ write_denied (st_world st) ->
  out ∉ tag_denied (st_world st) ->
  (length (existing_files (st_world st) fs) < 256)%nat ->
  sum_Z (map (decoded_ms (st_world st)) (existing_files (st_world st) fs))
    < 2 ^ 32 ->
  exists st',
    merge_audiobook fs out cb st
    = (Ok (merged out
             (marks_from (st_world st) 0 (existing_files (st_world st) fs))
             (sum_Z (map (decoded_ms (st_world st))
                       (existing_files (st_world st) fs)))), st').
Proof.
  intros Hdec Hne Hwr Htag Hlen Htotal.
  destruct (merge_audiobook_decodable fs out cb st Hdec) as (st' & Hrun & _).
  exists st'. rewrite Hrun.
  destruct (existing_files (st_world st) fs) as [|af rest] eqn:Hsurv; [done|].
  destruct (decide (out ∈ write_denied (st_world st))); [done|].
  destruct (decide (out ∈ tag_denied (st_world st))); [done|].
  apply Nat.ltb_lt in Hlen. apply Z.ltb_lt in Htotal.
  by rewrite Hlen, Htotal.
Qed.

Lemma none_existing_decodable (w : world) (fs : list audio_file) :
  existing_files w fs = [] -> Forall (decodable w) fs.
Proof.
  induction fs as [|af rest IH]; simpl; [constructor|].
  destruct (path_exists w (af_path af)) eqn:Hex; [discriminate|].
  intros Hrest. constructor; [|by apply IH].
  intros H. congruence.
Qed.

(** The run of [merge_audiobook] when no listed file exists. *)
Lemma merge_audiobook_none_exists (fs : list audio_file) (out : str)
    (cb : bool) (st : state) :
  existing_files (st_world st) fs = [] ->
  exists st',
    merge_audiobook fs out cb st = (Ok (failure no_valid_audio), st').
Proof.
  intros Hnone.
  destruct (merge_audiobook_decodable fs out cb st
              (none_existing_decodable _ _ Hnone)) as (st' & Hrun & _).
  exists st'. by rewrite Hrun, Hnone.
Qed.



(** C7 (amended): when the existing files can be decoded, the output can
    be written, fewer than 256 files exist and their total duration is
    below 2^32 ms, and the callback returns normally, [merge_audiobook]
    skips the missing files: with at least one existing file it succeeds,
    the boundary list has one entry per existing file, in order, the total
    duration is the sum of the durations of the existing files, each entry
    starts where the previous one ends, and the callback, when there is
    one, is told about every missing file.  When no listed file exists it
    returns 'success': False. *)
Theorem missing_chapters_skipped (fs : list audio_file) (out : str)
    (cb : callback) (st : state) :
  let w := st_world st in
  let survivors := existing_files w fs in
  let info := marks_from w 0 survivors in
  let total := sum_Z (map (decoded_ms w) survivors) in
  quiet cb ->
  Forall (decodable w) fs ->
  out ∉ write_denied w ->
  out ∉ tag_denied w ->
  (length survivors < 256)%nat ->
  total < 2 ^ 32 ->
  exists d st',
    merge_audiobook fs out cb st = (Ok d, st')
    /\ (survivors <> [] -> d = merged out info total)
    /\ (survivors = [] ->
        d = failure no_valid_audio
        /\ d !! lit "success" = Some (VBool false))
    /\ length info = length survivors
    /\ map cm_id info = map af_id survivors
    /\ map duration_ms info = map (decoded_ms w) survivors
    /\ (forall i b b', info !! i = Some b -> info !! S i = Some b' ->
                       start_ms b' = end_ms b)
    /\ (has_callback cb = true ->
        forall af, In af fs -> path_exists w (af_path af) = false ->
                   In (EvSkipMissing (af_path af)) (st_log st')).
Proof.
  intros w survivors info total Hq Hdec Hwr Htag Hlen Htotal.
  rewrite (merge_audiobook_quiet cb) by done.
  destruct (merge_audiobook_decodable fs out (has_callback cb) st Hdec)
    as (st' & Hrun & Hskip).
  fold w in Hrun, Hskip. fold survivors in Hrun. fold total in Hrun.
  fold info in Hrun.
  destruct (marks_from_fields w survivors 0) as (Hid & _ & Hdur).
  eexists _, st'. split; [exact Hrun|].
  apply Nat.ltb_lt in Hlen. apply Z.ltb_lt in Htotal.
  rewrite Hlen, Htotal. cbn [andb].
  destruct (decide (out ∈ write_denied w)); [done|].
  destruct (decide (out ∈ tag_denied w)); [done|].
  split; [by destruct survivors|].
  split.
  { intros ->. split; [done|]. apply failure_lookup. }
  split; [apply marks_from_length|].
  split; [exact Hid|]. split; [exact Hdur|].
  split; [|exact Hskip].
  apply (chained_invariants info (marks_from_chained w survivors 0)).
Qed.

(** C10 (amended): when the progress callback, if any, returns normally,
    [merge_audiobook] returns a dictionary and no exception leaves it.  The
    dictionary has 'success': False and an 'error' message, or 'success':
    True with the output path, the number of chapters, the total duration
    and the chapter list.  Which one is decided by the file system: a
    listed file that exists and cannot be decoded, no listed file that
    exists, an output that cannot be written, a tag area that cannot be
    written (the tagging failure raised by [add_chapter_markers]) and
    chapters that do not fit the chapter frames (256 or more, or 2^32 ms or
    more) each give 'success': False with the message of the exception;
    every other run gives 'success': True with the boundaries of the
    existing files. *)
Theorem merge_audiobook_returns (fs : list audio_file) (out : str)
    (cb : callback) (st : state) :
  let w := st_world st in
  let survivors := existing_files w fs in
  let info := marks_from w 0 survivors in
  let total := sum_Z (map (decoded_ms w) survivors) in
  quiet cb ->
  exists d st',
    merge_audiobook fs out cb st = (Ok d, st')
    /\ ((d !! lit "success" = Some (VBool false)
         /\ exists message, d !! lit "error" = Some (VStr message))
        \/ (d !! lit "success" = Some (VBool true)
            /\ d !! lit "output_path" = Some (VStr out)
            /\ d !! lit "total_chapters"
               = Some (VInt (Z.of_nat (length info)))
            /\ d !! lit "total_duration_ms" = Some (VInt total)
            /\ d !! lit "chapter_info" = Some (VChapters info)))
    /\ (~ Forall (decodable w) fs ->
        d = failure (exn_message CouldntDecodeError))
    /\ (Forall (decodable w) fs -> survivors = [] ->
        d = failure no_valid_audio)
    /\ (Forall (decodable w) fs -> survivors <> [] ->
        out ∈ write_denied w ->
        d = failure (exn_message PermissionError))
    /\ (Forall (decodable w) fs -> survivors <> [] ->
        out ∉ write_denied w -> out ∈ tag_denied w ->
        d = failure (exn_message PermissionError))
    /\ (Forall (decodable w) fs -> survivors <> [] ->
        out ∉ write_denied w -> out ∉ tag_denied w ->
        (256 <= length survivors)%nat \/ 2 ^ 32 <= total ->
        d = failure (exn_message FrameValueError))
    /\ (Forall (decodable w) fs -> survivors <> [] ->
        out ∉ write_denied w -> out ∉ tag_denied w ->
        (length survivors < 256)%nat -> total < 2 ^ 32 ->
        d = merged out info total).
Proof.
  intros w survivors info total Hq.
  rewrite (merge_audiobook_quiet cb) by done.
  assert (Hshape : forall message,
            failure message !! lit "success" = Some (VBool false)
            /\ exists m, failure message !! lit "error" = Some (VStr m)).
  { intros message. destruct (failure_lookup message) as [H1 H2]. eauto. }
  assert (Hdecide : Forall (decodable w) fs \/ ~ Forall (decodable w) fs).
  { clear. induction fs as [|af rest [IH|IH]].
    - left. constructor.
    - destruct (path_exists w (af_path af)) eqn:Hex.
      + destruct (from_mp3 w (af_path af)) as [segment|e] eqn:Hfrom.
        * left. constructor; [|done]. intros _. eauto.
        * right. intros H. apply Forall_cons in H as [H _].
          destruct (H Hex) as [segment Hs]. congruence.
      + left. constructor; [|done]. intros H. congruence.
    - right. intros H. apply Forall_cons in H as [_ H]. by apply IH. }
  destruct Hdecide as [Hdec|Hnot].
  - destruct (merge_audiobook_decodable fs out (has_callback cb) st Hdec)
      as (st' & Hrun & _).
    fold w in Hrun. fold survivors in Hrun. fold total in Hrun.
    fold info in Hrun.
    eexists _, st'. split; [exact Hrun|].
    destruct survivors as [|af0 rest] eqn:Hsurv.
    { split; [left; apply Hshape|]. repeat split; done. }
    rewrite <- Hsurv in *.
    assert (Hne : survivors <> []) by (rewrite Hsurv; discriminate).
    clearbody survivors. clear Hsurv.
    destruct (decide (out ∈ write_denied w)).
    { split; [left; apply Hshape|]. repeat split; done. }
    destruct (decide (out ∈ tag_denied w)).
    { split; [left; apply Hshape|]. repeat split; done. }
    destruct (Nat.ltb_spec (length survivors) 256) as [Hlen|Hlen];
      destruct (Z.ltb_spec total (2 ^ 32)) as [Htotal|Htotal]; cbn [andb].
    + split.
      { right. destruct (merged_lookup out info total)
          as (H1 & H2 & H3 & H4 & H5). done. }
      repeat split; try done. intros _ _ _ _ [H|H]; lia.
    + split; [left; apply Hshape|].
      repeat split; try done. intros _ _ _ _ _ H. lia.
    + split; [left; apply Hshape|].
      repeat split; try done. intros _ _ _ _ H. lia.
    + split; [left; apply Hshape|].
      repeat split; try done. intros _ _ _ _ H. lia.
  - destruct (merge_audiobook_undecodable fs out (has_callback cb) st Hnot)
      as (st' & Hrun & _).
    eexists _, st'. split; [exact Hrun|].
    split; [left; apply Hshape|]. repeat split; done.
Qed.

End MissingChapters.

(* ===================================================================== *)
(** * Sample runs                                                         *)
(* ===================================================================== *)

Section Samples.

Lemma sample_decodable : Forall (decodable sample_world) sample_files.
Proof. repeat constructor; intros _; vm_compute; eauto. Qed.


Lemma sample_survivors :
  existing_files sample_world sample_files = sample_files
  /\ marks_from sample_world 0 sample_files = sample_marks
  /\ sum_Z (map (decoded_ms sample_world) sample_files) = 15500
  /\ combined_from sample_world segment_empty sample_files = sample_combined.
Proof. by vm_compute. Qed.



(** The run on the three sample chapters. *)
Lemma sample_merge :
  exists st',
    merge_audiobook sample_files sample_out true (start_state sample_world)
    = (Ok (merged sample_out sample_marks 15500), st').
Proof.
  destruct (merge_audiobook_succeeds sample_files sample_out true
              (start_state sample_world)) as [st' Hrun].
  - exact sample_decodable.
  - cbn [start_state st_world]. destruct sample_survivors as (-> & _).
    discriminate.
  - apply not_elem_of_empty.
  - apply not_elem_of_empty.
  - cbn [start_state st_world]. destruct sample_survivors as (-> & _).
    cbn [length sample_files]. lia.
  - cbn [start_state st_world]. destruct sample_survivors as (-> & _ & -> & _).
    done.
  - cbn [start_state st_world] in Hrun.
    destruct sample_survivors as (He & Hm & Hs & _).
    rewrite He, Hm, Hs in Hrun. by exists st'.
Defined.

Lemma boundaries_chain_witness :
  exists info total,
    merged sample_out sample_marks 15500 !! lit "chapter_info" = Some (VChapters info)
    /\ merged sample_out sample_marks 15500 !! lit "total_duration_ms"
       = Some (VInt total)
    /\ (forall i b b', info !! i = Some b -> info !! S i = Some b' ->
                       start_ms b' = end_ms b)
    /\ (forall b, head info = Some b -> start_ms b = 0)
    /\ (forall i j bi bj, (i <= j)%nat ->
          info !! i = Some bi -> info !! j = Some bj ->
          start_ms bi <= start_ms bj /\ end_ms bi <= end_ms bj
          /\ start_ms bi <= end_ms bi)
    /\ (exists b, last info = Some b /\ end_ms b = total)
    /\ total = sum_Z (map duration_ms info).
Proof.
  destruct sample_merge as [st' Hrun].
  apply (boundaries_chain sample_files sample_out true
           (start_state sample_world) (merged sample_out sample_marks 15500)
           st' Hrun).
  apply merged_lookup.
Defined.



Lemma merge_audiobook_returns_witness :
  quiet true
  /\ exists d st',
       merge_audiobook sample_files sample_out true (start_state sample_world)
       = (Ok d, st')
       /\ d = merged sample_out sample_marks 15500.
Proof.
  split; [apply quiet_of_bool|].
  destruct (merge_audiobook_returns sample_files sample_out true
              (start_state sample_world) (quiet_of_bool true))
    as (d & st' & Hrun & _ & _ & _ & _ & _ & _ & Hd).
  exists d, st'. split; [exact Hrun|].
  cbn [start_state st_world] in Hd.
  destruct sample_survivors as (He & Hm & Hs & _).
  rewrite He, Hm, Hs in Hd. apply Hd.
  - exact sample_decodable.
  - discriminate.
  - apply not_elem_of_empty.
  - apply not_elem_of_empty.
  - cbn [length sample_files]. lia.
  - done.
Defined.

(** C10 as stated fails: a progress callback that raises makes
    [merge_audiobook] raise.  Its first call, in the [try] block, is
    caught; the handler calls it again, outside any [try]. *)
Lemma raising_callback_propagates :
  fst (merge_audiobook sample_files sample_out raising_callback
         (start_state sample_world))
  = Raise RuntimeError
  /\ st_log (snd (merge_audiobook sample_files sample_out raising_callback
                    (start_state sample_world)))
     = [EvStart 3; EvError RuntimeError].
Proof. split; reflexivity. Qed.

End Samples.

Section MissingSamples.

Lemma sample_gap_decodable : Forall (decodable sample_world_gap) sample_files.
Proof.
  repeat constructor; intros H; vm_compute in H; try discriminate;
    vm_compute; eauto.
Qed.

Lemma missing_chapters_skipped_witness :
  exists d st',
    merge_audiobook sample_files sample_out true (start_state sample_world_gap)
    = (Ok d, st')
    /\ (existing_files sample_world_gap sample_files <> [] ->
        d = merged sample_out sample_marks_gap 9000)
    /\ (existing_files sample_world_gap sample_files = [] ->
        d = failure no_valid_audio
        /\ d !! lit "success" = Some (VBool false))
    /\ length sample_marks_gap = 2%nat
    /\ map cm_id sample_marks_gap = [lit "1"; lit "3"]
    /\ map duration_ms sample_marks_gap = [5000; 4000]
    /\ (forall i b b', sample_marks_gap !! i = Some b ->
                       sample_marks_gap !! S i = Some b' ->
                       start_ms b' = end_ms b)
    /\ (true = true ->
        forall af, In af sample_files ->
                   path_exists sample_world_gap (af_path af) = false ->
                   In (EvSkipMissing (af_path af)) (st_log st')).
Proof.
  apply (missing_chapters_skipped sample_files sample_out true
           (start_state sample_world_gap)).
  - apply quiet_of_bool.
  - exact sample_gap_decodable.
  - apply not_elem_of_empty.
  - apply not_elem_of_empty.
  - vm_compute. lia.
  - by vm_compute.
Defined.

(** C7 as stated fails: when every listed file is missing,
    [merge_audiobook] fails, with 'success': False. *)
Lemma all_missing_fails :
  path_exists sample_world_gap (lit "ch2.mp3") = false
  /\ fst (merge_audiobook
            [{| af_path := lit "ch2.mp3"; af_title := lit "Two";
                af_id := lit "2" |}]
            sample_out true (start_state sample_world_gap))
     = Ok (failure no_valid_audio)
  /\ failure no_valid_audio !! lit "success" = Some (VBool false).
Proof.
  split; [by vm_compute|]. split; [|apply failure_lookup].
  destruct (merge_audiobook_none_exists
              [{| af_path := lit "ch2.mp3"; af_title := lit "Two";
                  af_id := lit "2" |}]
              sample_out true (start_state sample_world_gap)) as [st' Hrun];
    [by vm_compute|].
  by rewrite Hrun.
Qed.

End MissingSamples.

(* ===================================================================== *)
(** * Chapter markers                                                     *)
(* ===================================================================== *)

Section ChapterMarkers.

Lemma chapter_frames_insert_chap (tags : gmap str frame) (idx : nat)
    (chapter : chapter_mark) :
  tags !! chap_key idx = None ->
  size (chapter_frames (tags_add tags (chap_frame idx chapter)))
  = S (size (chapter_frames tags)).
Proof.
  intros Hnone. unfold chapter_frames, tags_add. rewrite chap_frame_key.
  rewrite map_filter_insert_True by done.
  apply map_size_insert_None. by apply map_lookup_filter_None_2; left.
Qed.

Lemma chap_loop_count (info : list chapter_mark) :
  forall idx ids tags,
    (forall j, (idx <= j)%nat -> tags !! chap_key j = None) ->
    size (chapter_frames (snd (chap_loop idx info ids tags)))
    = (size (chapter_frames tags) + length info)%nat.
Proof.
  induction info as [|chapter rest IH]; intros idx ids tags Hfree; simpl.
  - lia.
  - rewrite IH.
    + rewrite chapter_frames_insert_chap by (apply Hfree; lia). lia.
    + intros j Hj. unfold tags_add. rewrite chap_frame_key.
      rewrite lookup_insert_ne; [apply Hfree; lia|].
      intros H. apply chap_key_inj in H. lia.
Qed.

Lemma chapter_frames_insert_toc (tags : gmap str frame) (ids : list bytes) :
  (forall f, tags !! toc_key = Some f -> is_chap f = false) ->
  size (chapter_frames (tags_add tags (ctoc_frame ids)))
  = size (chapter_frames tags).
Proof.
  intros Htoc. unfold chapter_frames, tags_add. rewrite ctoc_frame_key.
  rewrite map_filter_insert_False by (simpl; discriminate).
  rewrite map_filter_delete. rewrite delete_id; [done|].
  apply map_lookup_filter_None_2.
  destruct (tags !! toc_key) as [f|] eqn:Hf; [right|by left].
  intros f' [= <-]. simpl. rewrite (Htoc f eq_refl). discriminate.
Qed.

Lemma seq_NoDup_ids (n : nat) :
  NoDup (map str_of_bytes (map chapter_element_id (seq 1 n))).
Proof.
  apply NoDup_fmap_2; [intros a b; apply str_of_bytes_inj|].
  apply NoDup_fmap_2; [|apply NoDup_seq].
  intros i j. apply chapter_element_id_inj.
Qed.

Lemma chapter_free_count (tags : gmap str frame) :
  chapter_free tags -> size (chapter_frames tags) = 0%nat.
Proof.
  intros Hfree. unfold chapter_frames.
  apply map_size_empty_iff, map_empty. intros k.
  apply map_lookup_filter_None_2.
  destruct (tags !! k) as [f|] eqn:Hk; [right|by left].
  intros f' [= <-]. simpl. destruct (Hfree k f Hk) as [-> _]. discriminate.
Qed.

(** On a dictionary without chapter frames, tagging leaves one chapter
    frame per boundary. *)
Lemma tagged_count (before : gmap str frame) (info : list chapter_mark) :
  chapter_free before ->
  size (chapter_frames (tagged before info)) = length info.
Proof.
  intros Hfree. unfold tagged.
  rewrite chapter_frames_insert_toc.
  - rewrite chap_loop_count, (chapter_free_count _ Hfree); [lia|].
    intros j _. destruct (before !! chap_key j) as [f|] eqn:Hf; [|done].
    destruct (Hfree _ _ Hf) as [_ Hk]. by destruct (Hk j).
  - intros f Hf. rewrite chap_loop_other in Hf.
    + by destruct (Hfree _ _ Hf).
    + intros j _ H. symmetry in H. by apply chap_key_not_toc in H.
Qed.

(** What a successful [add_chapter_markers] leaves in the file. *)
Lemma markers_saved (w : world) (audio_path : str)
    (info : list chapter_mark) (w' : world) :
  add_chapter_markers_on w audio_path info = Ok w' ->
  exists audio before,
    files w !! audio_path = Some (Mp3File audio before)
    /\ (audio_path ∉ tag_denied w)
    /\ tags_writable (tagged (tags_before w audio_path) info)
    /\ w' = put_file w audio_path
              (Mp3File audio (Some (tagged (tags_before w audio_path) info))).
Proof.
  rewrite add_chapter_markers_on_run.
  destruct (files w !! audio_path) as [[content|audio before|]|];
    try discriminate.
  unfold save. destruct (decide (audio_path ∈ tag_denied w)); [discriminate|].
  destruct (decide (tags_writable _)); [|discriminate].
  intros [= <-]. by exists audio, before.
Qed.

(** C9 (amended): after a successful [add_chapter_markers] the file holds
    the table of contents under its key, and its child ids are the element
    ids of the chapter frames written for the boundaries, in chapter order:
    the k-th child id is the element id of the frame built from the k-th
    boundary.  There are as many child ids as boundaries, they are pairwise
    distinct, and, on a file that held no chapter frame before, the file
    holds as many chapter frames. *)
Theorem toc_lists_chapter_frames (w : world) (audio_path : str)
    (info : list chapter_mark) (w' : world) :
  add_chapter_markers_on w audio_path info = Ok w' ->
  exists audio tags toc,
    files w' !! audio_path = Some (Mp3File audio (Some tags))
    /\ tags !! toc_key = Some toc
    /\ toc = ctoc_frame (map chapter_element_id (seq 1 (length info)))
    /\ length (toc_children toc) = length info
    /\ NoDup (toc_children toc)
    /\ (forall k chapter, info !! k = Some chapter ->
          exists f,
            tags !! chap_key (S k) = Some f
            /\ f = chap_frame (S k) chapter
            /\ toc_children toc !! k = Some (frame_element_id f))
    /\ (chapter_free (tags_before w audio_path) ->
        size (chapter_frames tags) = length info).
Proof.
  intros Hrun.
  apply markers_saved in Hrun as (audio & before & Hfile & _ & _ & ->).
  exists audio, (tagged (tags_before w audio_path) info),
    (ctoc_frame (map chapter_element_id (seq 1 (length info)))).
  split; [apply put_file_same|].
  split; [apply tagged_toc|].
  split; [reflexivity|].
  cbn [toc_children ctoc_frame].
  split; [by rewrite !length_map, length_seq|].
  split; [apply seq_NoDup_ids|].
  split; [|apply tagged_count].
  intros k chapter Hk. exists (chap_frame (S k) chapter).
  split; [by apply tagged_chapter|]. split; [reflexivity|].
  rewrite !list_lookup_fmap, lookup_seq_lt; [done|].
  by apply lookup_lt_Some in Hk.
Qed.

Lemma sample_tagging :
  add_chapter_markers_on
    (put_file sample_world sample_out (Mp3File sample_combined None))
    sample_out sample_marks
  = Ok (put_file sample_world sample_out
          (Mp3File sample_combined (Some (tagged ∅ sample_marks)))).
Proof.
  rewrite markers_on_export_run.
  destruct (decide (sample_out ∈ tag_denied sample_world)) as [Hin|_];
    [by apply not_elem_of_empty in Hin|].
  reflexivity.
Qed.

Lemma toc_lists_chapter_frames_witness :
  exists audio tags toc,
    files (put_file sample_world sample_out
             (Mp3File sample_combined (Some (tagged ∅ sample_marks))))
      !! sample_out = Some (Mp3File audio (Some tags))
    /\ tags !! toc_key = Some toc
    /\ toc = ctoc_frame (map chapter_element_id (seq 1 (length sample_marks)))
    /\ length (toc_children toc) = length sample_marks
    /\ NoDup (toc_children toc)
    /\ (forall k chapter, sample_marks !! k = Some chapter ->
          exists f,
            tags !! chap_key (S k) = Some f
            /\ f = chap_frame (S k) chapter
            /\ toc_children toc !! k = Some (frame_element_id f))
    /\ (chapter_free
          (tags_before
             (put_file sample_world sample_out (Mp3File sample_combined None))
             sample_out) ->
        size (chapter_frames tags) = length sample_marks).
Proof.
  apply (toc_lists_chapter_frames
           (put_file sample_world sample_out (Mp3File sample_combined None))
           sample_out sample_marks).
  exact sample_tagging.
Defined.

(** C9 as stated fails.  The element id of the first chapter frame is not
    chap001: the id is given as bytes and the frame stores the text
    b'chap001', under the key CHAP:b'chap001'.  And the number of chapter
    frames need not be the number of boundaries: tagging with two
    boundaries a file tagged before with three leaves three chapter frames
    and a table of contents with two children. *)
Lemma stale_chapter_frames :
  exists f tags,
    tagged ∅ sample_marks !! lit "CHAP:b'chap001'" = Some f
    /\ frame_element_id f = lit "b'chap001'"
    /\ tagged ∅ sample_marks !! lit "CHAP:chap001" = None
    /\ add_chapter_markers_on
         (put_file sample_world sample_out
            (Mp3File sample_combined (Some (tagged ∅ sample_marks))))
         sample_out sample_marks_gap
       = Ok (put_file sample_world sample_out
               (Mp3File sample_combined (Some tags)))
    /\ length sample_marks_gap = 2%nat
    /\ size (chapter_frames tags) = 3%nat
    /\ (exists toc, tags !! toc_key = Some toc
                    /\ length (toc_children toc) = 2%nat).
Proof.
  exists (chap_frame 1 (sample_mark "1" "One" 0 5000)),
    (tagged (tagged ∅ sample_marks) sample_marks_gap).
  split; [by vm_compute|]. split; [reflexivity|]. split; [by vm_compute|].
  split.
  { rewrite add_chapter_markers_on_run, put_file_same. unfold tags_before.
    rewrite put_file_same. unfold save.
    destruct (decide (sample_out ∈ tag_denied _)) as [Hin|_];
      [by apply not_elem_of_empty in Hin|].
    destruct (decide (tags_writable _)) as [_|Hw].
    - by rewrite put_file_twice.
    - destruct Hw. apply tagged_writable; [|split; [simpl; lia|done]].
      apply tagged_writable; [apply map_Forall_empty|].
      split; [simpl; lia|done]. }
  split; [reflexivity|]. split; [by vm_compute|].
  eexists. split; [by vm_compute|reflexivity].
Qed.

End ChapterMarkers.

(* ===================================================================== *)
(** * Subtitle offsets and audio boundaries                               *)
(* ===================================================================== *)

Section Offsets.

Lemma calculate_offsets_from_lookup (chapters : list chapter) :
  forall (cumulative_time : float) (k : nat) (ch : chapter),
    calculate_offsets_from cumulative_time chapters !! k = Some ch ->
    offset ch
    = fold_left PrimFloat.add (map duration (take k chapters)) cumulative_time.
Proof.
  induction chapters as [|c rest IH]; intros acc k ch Hk; [done|].
  destruct k as [|k]; simpl in *.
  - by injection Hk as <-.
  - by apply IH.
Qed.

Lemma calculate_offsets_length (chapters : list chapter) :
  forall acc, length (calculate_offsets_from acc chapters) = length chapters.
Proof.
  induction chapters as [|c rest IH]; intros acc; simpl; [done|].
  by rewrite IH.
Qed.

(** The offset [calculate_offsets] gives chapter k is the float sum, from
    the left and from 0.0, of the durations of the chapters before it. *)
Theorem offsets_are_prefix_sums (chapters : list chapter) (k : nat)
    (ch : chapter) :
  calculate_offsets chapters !! k = Some ch ->
  offset ch = float_sum (map duration (take k chapters)).
Proof. apply calculate_offsets_from_lookup. Qed.

Lemma offsets_are_prefix_sums_witness :
  offset (set_offset
            {| subtitle_path := []; chapter_id := [];
               duration := seconds_of_ms 4000; offset := 0%float |}
            (0 + seconds_of_ms 5000 + seconds_of_ms 6500)%float)
  = float_sum (map duration (take 2 (chapters_of_ms [5000; 6500; 4000]))).
Proof.
  apply (offsets_are_prefix_sums (chapters_of_ms [5000; 6500; 4000]) 2).
  reflexivity.
Defined.

(** C1: the offset of a chapter, converted to milliseconds, is not always
    the start of its audio boundary.  For chapters of 1001 and 2000 ms the
    second audio boundary starts at 1001 ms, and the offset of the second
    chapter, computed from the same durations in seconds, converts to
    1000 ms: [1.001 * 1000] is 1000.9999999999999 and [int] truncates it. *)
Lemma offsets_drift_from_boundaries :
  fst (merge_audiobook drift_files sample_out false (start_state drift_world))
  = Ok (merged sample_out drift_marks 3001)
  /\ map start_ms drift_marks = [0; 1001]
  /\ map offset_ms_of (calculate_offsets (chapters_of_ms [1001; 2000]))
     = [Ok 0; Ok 1000].
Proof.
  split; [|by vm_compute].
  destruct (merge_audiobook_succeeds drift_files sample_out false
              (start_state drift_world)) as [st' Hrun].
  - repeat constructor; intros _; vm_compute; eauto.
  - by vm_compute.
  - apply not_elem_of_empty.
  - apply not_elem_of_empty.
  - vm_compute. lia.
  - by vm_compute.
  - rewrite Hrun. cbn [fst start_state st_world]. do 2 f_equal; by vm_compute.
Qed.

End Offsets.

(* ===================================================================== *)
(** * Further properties of timestamps                                    *)
(* ===================================================================== *)

Section TimestampShifts.



Lemma span_app_stop (p : ascii -> bool) (s rest a b : str) :
  span p s = (a, b) ->
  (forall c r', rest = c :: r' -> p c = false) ->
  span p (s ++ rest) = (a, b ++ rest).
Proof.
  revert a b. induction s as [|c s IH]; intros a b Hs Hrest; simpl in *.
  - injection Hs as <- <-. destruct rest as [|c r']; [done|].
    simpl. by rewrite (Hrest c r').
  - destruct (p c); [|by injection Hs as <- <-].
    destruct (span p s) as [a' b'] eqn:Hsp. injection Hs as <- <-.
    by rewrite (IH a' b' eq_refl Hrest).
Qed.

Lemma digits1_app_stop (s rest d r : str) :
  digits1 s = Some (d, r) ->
  (forall c r', rest = c :: r' -> is_digit c = false) ->
  digits1 (s ++ rest) = Some (d, r ++ rest).
Proof.
  unfold digits1. intros Hs Hrest.
  destruct (span is_digit s) as [a b] eqn:Hsp.
  rewrite (span_app_stop _ _ _ _ _ Hsp Hrest).
  destruct a; [discriminate|]. by injection Hs as <- <-.
Qed.

Lemma expect_app (p : ascii -> bool) (s rest r : str) :
  expect p s = Some r -> expect p (s ++ rest) = Some (r ++ rest).
Proof.
  destruct s as [|c s]; [discriminate|]. simpl.
  destruct (p c); [|discriminate]. by intros [= <-].
Qed.

Lemma match_timestamp_app (ts rest : str) (fields : Z * Z * Z * Z) :
  match_timestamp ts = Some fields ->
  (forall c r', rest = c :: r' -> is_digit c = false) ->
  match_timestamp (ts ++ rest) = Some fields.
Proof.
  unfold match_timestamp. intros H Hrest.
  destruct (digits1 ts) as [[dh r1]|] eqn:E1; [|discriminate]. simpl in H.
  rewrite (digits1_app_stop _ _ _ _ E1 Hrest). simpl.
  destruct (expect is_colon r1) as [r2|] eqn:E2; [|discriminate]. simpl in H.
  rewrite (expect_app _ _ rest _ E2). simpl.
  destruct (digits1 r2) as [[dm r3]|] eqn:E3; [|discriminate]. simpl in H.
  rewrite (digits1_app_stop _ _ _ _ E3 Hrest). simpl.
  destruct (expect is_colon r3) as [r4|] eqn:E4; [|discriminate]. simpl in H.
  rewrite (expect_app _ _ rest _ E4). simpl.
  destruct (digits1 r4) as [[ds r5]|] eqn:E5; [|discriminate]. simpl in H.
  rewrite (digits1_app_stop _ _ _ _ E5 Hrest). simpl.
  destruct (expect is_comma_or_dot r5) as [r6|] eqn:E6; [|discriminate].
  simpl in H. rewrite (expect_app _ _ rest _ E6). simpl.
  destruct (digits1 r6) as [[dms r7]|] eqn:E7; [|discriminate]. simpl in H.
  rewrite (digits1_app_stop _ _ _ _ E7 Hrest). simpl. exact H.
Qed.

(** The pattern is matched at the start only: text that follows a timestamp
    (and does not extend its milliseconds) is dropped by the shift. *)
Theorem shift_drops_trailing_text (ts rest : str) (v offset_ms : Z) :
  timestamp_ms ts = Some v ->
  (forall c r', rest = c :: r' -> is_digit c = false) ->
  _add_offset_to_timestamp (ts ++ rest) offset_ms
  = _add_offset_to_timestamp ts offset_ms.
Proof.
  intros Hv Hrest.
  rewrite (add_offset_matched ts v offset_ms Hv).
  apply add_offset_matched.
  unfold timestamp_ms in *.
  destruct (match_timestamp ts) as [fields|] eqn:Hm; [|discriminate].
  by rewrite (match_timestamp_app _ _ _ Hm Hrest).
Qed.

Lemma shift_drops_trailing_text_witness :
  _add_offset_to_timestamp (lit "00:00:01,000" ++ lit " X=10") 5000
  = _add_offset_to_timestamp (lit "00:00:01,000") 5000.
Proof.
  apply (shift_drops_trailing_text (lit "00:00:01,000") (lit " X=10") 1000);
    [reflexivity|].
  by intros c r' [= <- _].
Defined.




End TimestampShifts.

(* ===================================================================== *)
(** * Further properties of the subtitle composer                         *)
(* ===================================================================== *)

Section ComposerNumbering.

Lemma render_block_numbered (offset_ms idx : Z) (block : str) :
  exists rest, render_block offset_ms idx block = str_of_Z idx ++ nl ++ rest.
Proof.
  unfold render_block.
  destruct (2 <? length (block_lines block))%nat;
    rewrite <- ?app_assoc; eauto.
Qed.

Lemma number_blocks_numbered (offset_ms : Z) (blocks : list str) :
  forall idx, numbered_from idx (number_blocks offset_ms idx blocks).
Proof.
  induction blocks as [|block rest IH]; intros idx i b Hi; [done|].
  destruct i as [|i]; simpl in Hi.
  - injection Hi as <-. rewrite Z.add_0_r. apply render_block_numbered.
  - destruct (IH (idx + 1) i b Hi) as [r Hr]. exists r.
    rewrite Hr. do 2 f_equal. lia.
Qed.

Lemma adjust_numbered_length (srt_content : str) (offset_ms start_index : Z) :
  _adjust_subtitle_timing srt_content offset_ms start_index
  = number_blocks offset_ms start_index
      (List.filter block_retained (re_split_blank (strip srt_content))).
Proof.
  unfold _adjust_subtitle_timing. by rewrite adjust_loop_filter.
Qed.

(** The blocks [_adjust_subtitle_timing] returns are numbered consecutively
    from [start_index], whatever index the input blocks carried and however
    many blocks were dropped. *)
Theorem adjusted_blocks_renumbered (srt_content : str)
    (offset_ms start_index : Z) :
  numbered_from start_index
    (_adjust_subtitle_timing srt_content offset_ms start_index).
Proof.
  rewrite adjust_numbered_length. apply number_blocks_numbered.
Qed.

Lemma adjusted_blocks_renumbered_witness :
  exists rest,
    lit "4" ++ nl ++ lit "00:00:06,000 --> 00:00:07,000" ++ nl ++ lit "ok"
    = str_of_Z (4 + Z.of_nat 0) ++ nl ++ rest.
Proof.
  apply (adjusted_blocks_renumbered
           (lit "junk" ++ nl ++ nl ++ lit "9" ++ nl
              ++ lit "00:00:01,000 --> 00:00:02,000" ++ nl ++ lit "ok")
           5000 4 0%nat).
  reflexivity.
Defined.

(** A subtitle file that is empty or holds white space only gives no
    block. *)
Theorem blank_content_no_blocks (srt_content : str) (offset_ms start_index : Z) :
  Forall (fun c => isspace c = true) srt_content ->
  _adjust_subtitle_timing srt_content offset_ms start_index = [].
Proof.
  intros Hblank. unfold _adjust_subtitle_timing.
  assert (Hdrop : dropwhile isspace srt_content = []).
  { induction Hblank as [|c s Hc _ IH]; simpl; [done|]. by rewrite Hc. }
  unfold strip. rewrite Hdrop. reflexivity.
Qed.

Lemma blank_content_no_blocks_witness :
  _adjust_subtitle_timing (nl ++ lit "  " ++ nl) 5000 1 = [].
Proof.
  apply (blank_content_no_blocks (nl ++ lit "  " ++ nl) 5000 1).
  repeat constructor.
Defined.

Lemma numbered_from_app (idx : Z) (a b : list str) :
  numbered_from idx a ->
  numbered_from (idx + Z.of_nat (length a)) b ->
  numbered_from idx (a ++ b).
Proof.
  intros Ha Hb i x Hi.
  destruct (lookup_app_Some a b i x) as [H _].
  destruct (H Hi) as [Hl|[Hge Hr]]; [by apply Ha|].
  destruct (Hb _ _ Hr) as [rest ->]. exists rest. do 2 f_equal. lia.
Qed.

Lemma compose_loop_numbered (w : world) (chapters : list chapter) :
  forall (master_content : list str) (subtitle_index start : Z)
         master_content' subtitle_index',
    compose_loop w chapters master_content subtitle_index
    = Ok (master_content', subtitle_index') ->
    subtitle_index = start + Z.of_nat (length master_content) ->
    numbered_from start master_content ->
    subtitle_index' = start + Z.of_nat (length master_content')
    /\ numbered_from start master_content'.
Proof.
  induction chapters as [|ch rest IH];
    intros master idx start master' idx' Hrun Hidx Hnum.
  - simpl in Hrun. by injection Hrun as <- <-.
  - cbn [compose_loop] in Hrun.
    destruct (py_int (offset ch * 1000)) as [offset_ms|e]; [|discriminate].
    destruct (path_exists w (subtitle_path ch)); cbn [negb] in Hrun.
    + destruct (read_text w (subtitle_path ch)) as [content|e];
        [|discriminate].
      eapply IH; [exact Hrun| |].
      * rewrite length_app. lia.
      * apply numbered_from_app; [exact Hnum|]. rewrite <- Hidx.
        rewrite adjust_numbered_length. apply number_blocks_numbered.
    + eapply IH; eauto.
Qed.

(** The master track is numbered 1, 2, 3, ... across the chapters: after a
    composition loop that did not raise, the next index is one more than the
    number of blocks, and block i starts with the number i + 1. *)
Theorem master_blocks_numbered (w : world) (chapters : list chapter)
    (master_content : list str) (subtitle_index : Z) :
  compose_loop w chapters [] 1 = Ok (master_content, subtitle_index) ->
  subtitle_index = 1 + Z.of_nat (length master_content)
  /\ numbered_from 1 master_content.
Proof.
  intros Hrun.
  apply (compose_loop_numbered w chapters [] 1 1 _ _ Hrun); [reflexivity|].
  intros i b Hi. done.
Qed.

Lemma master_blocks_numbered_witness :
  exists master_content subtitle_index,
    compose_loop subtitle_world (calculate_offsets subtitle_chapters) [] 1
    = Ok (master_content, subtitle_index)
    /\ subtitle_index = 1 + Z.of_nat (length master_content)
    /\ numbered_from 1 master_content.
Proof.
  assert (Hrun : exists m i,
            compose_loop subtitle_world (calculate_offsets subtitle_chapters)
              [] 1 = Ok (m, i)) by (vm_compute; eauto).
  destruct Hrun as (m & i & Hrun). exists m, i.
  split; [exact Hrun|].
  exact (master_blocks_numbered subtitle_world
           (calculate_offsets subtitle_chapters) m i Hrun).
Defined.

(** A chapter whose subtitle file is missing contributes no block and does
    not stop the composition: the loop gives what it gives on the chapters
    whose file exists, as long as every offset has an integer value. *)
Theorem missing_subtitles_skipped (w : world) (chapters : list chapter)
    (master_content : list str) (subtitle_index : Z) :
  Forall (fun ch => exists ms, py_int (offset ch * 1000)%float = Ok ms)
    chapters ->
  compose_loop w chapters master_content subtitle_index
  = compose_loop w (chapters_with_subtitles w chapters) master_content
      subtitle_index.
Proof.
  intros Hoff. revert master_content subtitle_index.
  induction Hoff as [|ch rest [ms Hms] _ IH]; intros master idx; [done|].
  cbn [chapters_with_subtitles List.filter compose_loop].
  fold (chapters_with_subtitles w rest).
  destruct (path_exists w (subtitle_path ch)) eqn:Hex.
  - cbn [compose_loop]. rewrite Hms, Hex. cbn [negb].
    destruct (read_text w (subtitle_path ch)); [apply IH | reflexivity].
  - rewrite Hms. cbn [negb]. apply IH.
Qed.

Lemma missing_subtitles_skipped_witness :
  compose_loop subtitle_world (calculate_offsets subtitle_chapters) [] 1
  = compose_loop subtitle_world
      (chapters_with_subtitles subtitle_world
         (calculate_offsets subtitle_chapters)) [] 1.
Proof.
  apply (missing_subtitles_skipped subtitle_world
           (calculate_offsets subtitle_chapters) [] 1).
  repeat constructor; vm_compute; eauto.
Defined.

End ComposerNumbering.

Section ComposerOffsets.

Lemma calculate_offsets_from_again (chapters : list chapter) :
  forall a b,
    calculate_offsets_from a (calculate_offsets_from b chapters)
    = calculate_offsets_from a chapters.
Proof.
  induction chapters as [|ch rest IH]; intros a b; simpl; [done|].
  by rewrite IH.
Qed.

Lemma calculate_offsets_from_fields (chapters : list chapter) :
  forall a,
    map subtitle_path (calculate_offsets_from a chapters)
    = map subtitle_path chapters
    /\ map chapter_id (calculate_offsets_from a chapters)
       = map chapter_id chapters
    /\ map duration (calculate_offsets_from a chapters)
       = map duration chapters.
Proof.
  induction chapters as [|ch rest IH]; intros a; simpl; [done|].
  destruct (IH (a + duration ch)%float) as (-> & -> & ->). done.
Qed.

(** [calculate_offsets] recomputes every offset from the durations alone:
    the offsets stored before do not matter, so that computing them twice
    gives the same chapters, and paths, ids and durations are kept. *)
Theorem calculate_offsets_idempotent (chapters : list chapter) :
  calculate_offsets (calculate_offsets chapters) = calculate_offsets chapters
  /\ map subtitle_path (calculate_offsets chapters)
     = map subtitle_path chapters
  /\ map chapter_id (calculate_offsets chapters) = map chapter_id chapters
  /\ map duration (calculate_offsets chapters) = map duration chapters.
Proof.
  unfold calculate_offsets. split; [apply calculate_offsets_from_again|].
  apply calculate_offsets_from_fields.
Qed.

End ComposerOffsets.

(* ===================================================================== *)
(** * Further properties of the merger                                    *)
(* ===================================================================== *)

Section MergerEffects.

Lemma markers_write_one_file (w : world) (audio_path : str)
    (info : list chapter_mark) (w' : world) :
  add_chapter_markers_on w audio_path info = Ok w' ->
  exists audio tags, w' = put_file w audio_path (Mp3File audio (Some tags)).
Proof.
  intros Hrun.
  apply markers_saved in Hrun as (audio & before & _ & _ & _ & ->). eauto.
Qed.

Lemma put_file_other (w : world) (p q : str) (f : file) :
  p <> q -> files (put_file w p f) !! q = files w !! q.
Proof. intros Hne. unfold put_file. cbn [files]. by apply lookup_insert_ne. Qed.

Lemma notify_world (cb : callback) (ev : event) (st : state) :
  st_world (snd (notify cb ev st)) = st_world st.
Proof. unfold notify. destruct cb as [|call]; [done|]. by destruct (call ev). Qed.

Ltac step_notify cb st' H :=
  match goal with
  | |- context [notify cb ?ev ?s] =>
      pose proof (notify_world cb ev s) as H;
      destruct (notify cb ev s) as [[[]|?] st']; cbn [snd] in H
  end.

(** The loop only reads the file system, whatever the callback. *)
Lemma merge_loop_world_any (cb : callback) (total : nat)
    (fs : list audio_file) :
  forall idx combined info pos st,
    st_world (snd (merge_loop cb total idx fs combined info pos st))
    = st_world st.
Proof.
  induction fs as [|af rest IH]; intros idx combined info pos st; [done|].
  cbn [merge_loop]. unfold mbind, M_bind, bind.
  step_notify cb st1 H1; [|done]. unfold get_world.
  destruct (negb (path_exists _ (af_path af))).
  - step_notify cb st2 H2; [|cbn [snd]; congruence]. rewrite IH. congruence.
  - unfold lift. destruct (from_mp3 _ (af_path af)); [|done].
    by rewrite IH.
Qed.

(** The body of [merge_audiobook] writes the output file only. *)
Lemma merge_body_files (fs : list audio_file) (out : str) (cb : callback)
    (st : state) (p : str) :
  p <> out ->
  files (st_world (snd (merge_body fs out cb st))) !! p
  = files (st_world st) !! p.
Proof.
  intros Hne. unfold merge_body, mbind, M_bind, bind, mret, M_ret, ret.
  step_notify cb st0 H0; [|cbn [snd]; congruence].
  pose proof (merge_loop_world_any cb (length fs) fs 1 segment_empty [] 0 st0)
    as Hloop.
  destruct (merge_loop cb (length fs) 1 fs segment_empty [] 0 st0)
    as [[[[combined info] pos]|e] st1]; cbn [snd] in Hloop;
    [|cbn [snd]; congruence].
  destruct (length info =? 0)%nat; [cbn [snd]; congruence|].
  step_notify cb st2 H2; [|cbn [snd]; congruence].
  unfold get_world, lift, export.
  destruct (decide (out ∈ write_denied _)); [cbn [snd]; congruence|].
  unfold put_world.
  assert (Hput : forall f,
            files (put_file (st_world st2) out f) !! p
            = files (st_world st) !! p).
  { intros f. rewrite put_file_other by done. congruence. }
  step_notify cb st3 H3; cbn [st_world] in H3;
    [|cbn [snd]; rewrite H3; apply Hput].
  rewrite add_chapter_markers_run.
  destruct (add_chapter_markers_on _ out info) as [w''|e] eqn:Hmark.
  2:{ cbn [snd]. rewrite H3. apply Hput. }
  apply markers_write_one_file in Hmark as (audio & tags & ->).
  assert (Hfinal : files (put_file (st_world st3) out
                            (Mp3File audio (Some tags))) !! p
                   = files (st_world st) !! p).
  { rewrite put_file_other by done. rewrite H3. apply Hput. }
  step_notify cb st4 H4; cbn [st_world] in H4; [|cbn [snd]; congruence].
  step_notify cb st5 H5; [|cbn [snd]; congruence].
  step_notify cb st6 H6; [|cbn [snd]; congruence].
  step_notify cb st7 H7; cbn [snd]; congruence.
Qed.

(** [merge_audiobook] touches no file but the output file: whatever the
    run and the callback, every other path holds afterwards what it held
    before. *)
Theorem merge_touches_output_only (fs : list audio_file) (out : str)
    (cb : callback) (st : state) (p : str) :
  p <> out ->
  files (st_world (snd (merge_audiobook fs out cb st))) !! p
  = files (st_world st) !! p.
Proof.
  intros Hne. pose proof (merge_body_files fs out cb st p Hne) as Hbody.
  unfold merge_audiobook, try_except.
  destruct (merge_body fs out cb st) as [[d|e] st1]; cbn [snd] in Hbody;
    [done|].
  unfold mbind, M_bind, bind, mret, M_ret, ret.
  step_notify cb st2 H2; cbn [snd]; congruence.
Qed.

Lemma merge_touches_output_only_witness :
  files (st_world (snd (merge_audiobook sample_files sample_out true
                          (start_state sample_world)))) !! lit "ch1.mp3"
  = files (st_world (start_state sample_world)) !! lit "ch1.mp3".
Proof.
  apply (merge_touches_output_only sample_files sample_out true
           (start_state sample_world) (lit "ch1.mp3")).
  discriminate.
Defined.





End MergerEffects.

(* ===================================================================== *)
(** * Further properties of the chapter markers                           *)
(* ===================================================================== *)

Section Retagging.

(** A loop over chapters whose frames are already in the dictionary changes
    nothing. *)
Lemma chap_loop_fixed (info : list chapter_mark) :
  forall idx ids tags,
    (forall k chapter, info !! k = Some chapter ->
       tags !! chap_key (idx + k) = Some (chap_frame (idx + k) chapter)) ->
    snd (chap_loop idx info ids tags) = tags.
Proof.
  induction info as [|chapter rest IH]; intros idx ids tags Hin; [done|].
  simpl.
  assert (Hadd : tags_add tags (chap_frame idx chapter) = tags).
  { unfold tags_add. rewrite chap_frame_key. apply insert_id.
    specialize (Hin 0%nat chapter eq_refl). by rewrite Nat.add_0_r in Hin. }
  rewrite Hadd. apply IH. intros k c Hk.
  specialize (Hin (S k) c Hk).
  by replace (S idx + k)%nat with (idx + S k)%nat by lia.
Qed.

(** Tagging a dictionary that holds the frames of the boundaries and their
    table of contents changes nothing. *)
Lemma tagged_fixed (tags : gmap str frame) (info : list chapter_mark) :
  (forall k chapter, info !! k = Some chapter ->
     tags !! chap_key (S k) = Some (chap_frame (S k) chapter)) ->
  tags !! toc_key
  = Some (ctoc_frame (map chapter_element_id (seq 1 (length info)))) ->
  tagged tags info = tags.
Proof.
  intros Hchap Htoc. unfold tagged.
  rewrite chap_loop_fixed by (intros k chapter Hk; by apply Hchap).
  unfold tags_add. rewrite ctoc_frame_key. by apply insert_id.
Qed.

(** Tagging is idempotent: adding the markers of the same boundaries a
    second time leaves the file exactly as the first time left it; frames
    are replaced under their keys, never duplicated. *)
Theorem retagging_idempotent (w : world) (audio_path : str)
    (info : list chapter_mark) (w1 : world) :
  add_chapter_markers_on w audio_path info = Ok w1 ->
  add_chapter_markers_on w1 audio_path info = Ok w1.
Proof.
  intros Hrun.
  apply markers_saved in Hrun as (audio & before & _ & Hfree & Hw & ->).
  set (tags := tagged (tags_before w audio_path) info) in *.
  rewrite add_chapter_markers_on_run, put_file_same. unfold tags_before.
  rewrite put_file_same. rewrite (tagged_fixed _ info).
  - unfold save.
    change (tag_denied (put_file w audio_path (Mp3File audio (Some tags))))
      with (tag_denied w).
    destruct (decide (audio_path ∈ tag_denied w)); [done|].
    destruct (decide (tags_writable tags)); [|done].
    by rewrite put_file_twice.
  - intros k chapter Hk. by apply tagged_chapter.
  - apply tagged_toc.
Qed.

Lemma retagging_idempotent_witness :
  add_chapter_markers_on
    (put_file sample_world sample_out
       (Mp3File sample_combined (Some (tagged ∅ sample_marks))))
    sample_out sample_marks
  = Ok (put_file sample_world sample_out
          (Mp3File sample_combined (Some (tagged ∅ sample_marks)))).
Proof.
  apply (retagging_idempotent
           (put_file sample_world sample_out (Mp3File sample_combined None))
           sample_out sample_marks).
  exact sample_tagging.
Defined.



(** On an MP3 file whose frames can be written, [add_chapter_markers]
    succeeds exactly when the tag area can be written, there are fewer
    than 256 boundaries and their times fit 32 bits; on a path that does
    not hold an MP3 file it fails, the fallback of its inner handler does
    not rescue it. *)
Theorem tagging_succeeds_iff (w : world) (audio_path : str)
    (info : list chapter_mark) :
  tags_writable (tags_before w audio_path) ->
  (exists w', add_chapter_markers_on w audio_path info = Ok w')
  <-> (exists audio tags, files w !! audio_path = Some (Mp3File audio tags))
      /\ (audio_path ∉ tag_denied w)
      /\ (length info < 256)%nat
      /\ Forall (fun chapter =>
                   0 <= start_ms chapter < 2 ^ 32
                   /\ 0 <= end_ms chapter < 2 ^ 32) info.
Proof.
  intros Hbefore.
  assert (Hmarks : forallb mark_writable info = true
                   <-> Forall (fun chapter =>
                                 0 <= start_ms chapter < 2 ^ 32
                                 /\ 0 <= end_ms chapter < 2 ^ 32) info).
  { rewrite forallb_forall, List.Forall_forall.
    split; intros H c Hc; apply mark_writable_spec; by apply H. }
  pose proof (tagged_writable _ info Hbefore) as Hiff.
  rewrite add_chapter_markers_on_run. split.
  - intros [w' Hrun].
    destruct (files w !! audio_path) as [[content|audio before|]|];
      try discriminate.
    revert Hrun. unfold save.
    destruct (decide (audio_path ∈ tag_denied w)); [discriminate|].
    destruct (decide (tags_writable _)) as [Hw|]; [|discriminate].
    intros _. apply Hiff in Hw as [Hlen Hinfo].
    split; [eauto|]. split; [done|]. split; [done|]. by apply Hmarks.
  - intros ((audio & before & ->) & Hfree & Hlen & Hinfo).
    unfold save. destruct (decide (audio_path ∈ tag_denied w)); [done|].
    destruct (decide (tags_writable _)) as [|Hw]; [eauto|].
    destruct Hw. apply Hiff. split; [done|]. by apply Hmarks.
Qed.

Lemma tagging_succeeds_iff_witness :
  (exists w',
     add_chapter_markers_on
       (put_file sample_world sample_out (Mp3File sample_combined None))
       sample_out sample_marks = Ok w')
  <-> (exists audio tags,
         files (put_file sample_world sample_out
                  (Mp3File sample_combined None)) !! sample_out
         = Some (Mp3File audio tags))
      /\ (sample_out ∉ tag_denied
                         (put_file sample_world sample_out
                            (Mp3File sample_combined None)))
      /\ (length sample_marks < 256)%nat
      /\ Forall (fun chapter =>
                   0 <= start_ms chapter < 2 ^ 32
                   /\ 0 <= end_ms chapter < 2 ^ 32) sample_marks.
Proof.
  apply (tagging_succeeds_iff
           (put_file sample_world sample_out (Mp3File sample_combined None))
           sample_out sample_marks).
  unfold tags_before. rewrite put_file_same. apply map_Forall_empty.
Defined.

End Retagging.

(* ===================================================================== *)
(** * Further properties of the batch                                     *)
(* ===================================================================== *)

Section FileNameShape.

(** The shape of an output file name: the safe characters of id, title and
    part, joined by "_" and "_Part", without white space at either end.  It
    is never empty, so that no chapter is written to a file named ".mp3". *)
Theorem batch_filename_shape (id title part : str) :
  batch_filename id title part
  = lstrip (List.filter safe_char id) ++ lit "_"
      ++ List.filter safe_char title ++ lit "_Part"
      ++ rstrip (List.filter safe_char part)
  /\ batch_filename id title part <> [].
Proof.
  pose proof (batch_filename_parts id title part) as Hshape.
  split; [exact Hshape|]. rewrite Hshape.
  intros H. apply List.app_eq_nil in H as [_ H]. discriminate.
Qed.

End FileNameShape.

Section Retries.

Variable tts : nat -> nat -> outcome.
Variable subtitle_dir : str.

(** A chapter whose three attempts all fail: the engine is called three
    times, with waits of 1 and 2 seconds in between and none after the last
    attempt; the chapter is counted as failed and is not given to the
    subtitle composer. *)
Theorem failing_chapter_backoff (idx : nat) (r : row) (st : batch_state) :
  never_generated tts idx ->
  retry_loop tts subtitle_dir idx r (seq 0 max_retries) st
  = {| processed := processed st; failed := failed st + 1;
       composer := composer st;
       trace := trace st ++ [Attempt idx 0; Backoff 1; Attempt idx 1;
                             Backoff 2; Attempt idx 2] |}.
Proof.
  intros Hnever. cbn [seq max_retries retry_loop].
  destruct (tts idx 0) eqn:H0; [by apply Hnever in H0| |];
    (destruct (tts idx 1) eqn:H1; [by apply Hnever in H1| |]);
    (destruct (tts idx 2) eqn:H2; [by apply Hnever in H2| |]);
    cbn; by rewrite <- !app_assoc.
Qed.

(** A chapter generated at the attempt number k, after k failures: the
    engine is called k + 1 times and never again after the success, the
    waits are 1, 2, ... 2^(k-1) seconds, and the chapter is counted as
    processed and given to the composer with the duration len(text) / 15. *)
Theorem generated_after_retries (idx k : nat) (r : row) (st : batch_state) :
  (k < max_retries)%nat ->
  (forall j, (j < k)%nat -> tts idx j <> Generated) ->
  tts idx k = Generated ->
  retry_loop tts subtitle_dir idx r (seq 0 max_retries) st
  = {| processed := processed st + 1; failed := failed st;
       composer := composer st ++ [chapter_of_row subtitle_dir r];
       trace := trace st ++ attempts_until idx k |}.
Proof.
  intros Hk Hfail Hok. unfold max_retries in Hk.
  assert (Hcases : k = 0%nat \/ k = 1%nat \/ k = 2%nat) by lia.
  cbn [seq max_retries retry_loop].
  destruct Hcases as [-> | [-> | ->]].
  - rewrite Hok. reflexivity.
  - destruct (tts idx 0) eqn:H0; [exfalso; by apply (Hfail 0%nat ltac:(lia))| |];
      rewrite Hok; cbn; by rewrite <- !app_assoc.
  - destruct (tts idx 0) eqn:H0; [exfalso; by apply (Hfail 0%nat ltac:(lia))| |];
      (destruct (tts idx 1) eqn:H1; [exfalso; by apply (Hfail 1%nat ltac:(lia))| |]);
      rewrite Hok; cbn; by rewrite <- !app_assoc.
Qed.

(** What one chapter does to the counters, the composer and the waits
    between chapters. *)
Lemma retry_loop_outcome (idx : nat) (r : row) (st : batch_state) :
  let st' := retry_loop tts subtitle_dir idx r (seq 0 max_retries) st in
  delays (trace st') = delays (trace st)
  /\ if generated tts idx
     then processed st' = processed st + 1 /\ failed st' = failed st
          /\ composer st' = composer st ++ [chapter_of_row subtitle_dir r]
     else processed st' = processed st /\ failed st' = failed st + 1
          /\ composer st' = composer st.
Proof.
  assert (Hd : forall tr ev, is_delay ev = false ->
                 delays (tr ++ [ev]) = delays tr).
  { intros tr ev Hev. unfold delays. rewrite List.filter_app. simpl.
    rewrite Hev. by rewrite app_nil_r. }
  cbv zeta. unfold generated.
  cbn [seq max_retries retry_loop existsb].
  destruct (tts idx 0); [| |];
    try (destruct (tts idx 1); [| |]);
    try (destruct (tts idx 2); [| |]);
    cbn [processed failed composer trace record max_retries Nat.ltb Nat.leb
           Nat.sub orb];
    rewrite ?Hd by reflexivity; done.
Qed.

Lemma batch_loop_outcome (total : nat) (rows : list row) :
  forall idx st,
    let st' := batch_loop tts subtitle_dir total idx rows st in
    processed st' + failed st'
    = processed st + failed st + Z.of_nat (length rows)
    /\ composer st'
       = composer st
           ++ map (chapter_of_row subtitle_dir) (generated_rows tts idx rows)
    /\ processed st'
       = processed st + Z.of_nat (length (generated_rows tts idx rows))
    /\ delays (trace st')
       = (delays (trace st)
          + length (List.filter (fun i => i <? total)%nat
                      (seq idx (length rows))))%nat.
Proof.
  induction rows as [|r rest IH]; intros idx st; cbn zeta.
  - simpl. rewrite app_nil_r. repeat split; lia.
  - cbn [batch_loop generated_rows length seq List.filter].
    pose proof (retry_loop_outcome idx r st) as Hstep. cbv zeta in Hstep.
    set (st1 := retry_loop tts subtitle_dir idx r (seq 0 max_retries) st) in *.
    set (st2 := if (idx <? total)%nat then record Delay st1 else st1).
    assert (Hsame : processed st2 = processed st1 /\ failed st2 = failed st1
                    /\ composer st2 = composer st1
                    /\ delays (trace st2)
                       = (delays (trace st1)
                          + if (idx <? total)%nat then 1 else 0)%nat).
    { unfold st2. destruct (idx <? total)%nat; cbn; [|repeat split; lia].
      repeat split. unfold delays. rewrite List.filter_app, length_app.
      reflexivity. }
    destruct Hsame as (Hp & Hf & Hc & Hdl).
    destruct (IH (S idx) st2) as (Hsum & Hcomp & Hproc & Hdel).
    rewrite Hsum, Hcomp, Hproc, Hdel, Hp, Hf, Hc, Hdl.
    destruct Hstep as [Hd Hstep]. rewrite Hd.
    destruct (generated tts idx).
    + destruct Hstep as (-> & -> & ->). cbn [map length].
      rewrite <- app_assoc. cbn [app].
      destruct (idx <? total)%nat; cbn [length]; repeat split; lia.
    + destruct Hstep as (-> & -> & ->).
      destruct (idx <? total)%nat; cbn [length]; repeat split; lia.
Qed.

Lemma generated_rows_length (idx : nat) (rows : list row) :
  (length (generated_rows tts idx rows) <= length rows)%nat.
Proof.
  revert idx. induction rows as [|r rest IH]; intros idx; simpl; [lia|].
  specialize (IH (S idx)). destruct (generated tts idx); simpl; lia.
Qed.

Lemma count_below (total : nat) :
  forall n idx,
    length (List.filter (fun i => i <? total)%nat (seq idx n))
    = (Nat.min (idx + n) total - idx)%nat.
Proof.
  induction n as [|n IH]; intros idx; simpl; [lia|].
  destruct (Nat.ltb_spec idx total); simpl; rewrite IH; lia.
Qed.

(** Every chapter of the batch ends up counted exactly once, as processed or
    as failed, whatever the engine does: a failing chapter never stops the
    batch.  The composer holds as many chapters as were processed, and the
    loop waits between chapters only, not after the last one. *)
Theorem batch_counts (rows : list row) :
  let st := batch_chapters tts subtitle_dir rows in
  processed st + failed st = Z.of_nat (length rows)
  /\ Z.of_nat (length (composer st)) = processed st
  /\ 0 <= processed st /\ 0 <= failed st
  /\ delays (trace st) = (length rows - 1)%nat.
Proof.
  cbv zeta. unfold batch_chapters.
  destruct (batch_loop_outcome (length rows) rows 1
              {| processed := 0; failed := 0; composer := []; trace := [] |})
    as (Hsum & Hcomp & Hproc & Hdel).
  cbn [processed failed composer trace app] in *.
  pose proof (generated_rows_length 1 rows) as Hlen.
  rewrite Hcomp, length_map.
  split; [lia|]. split; [lia|]. split; [lia|]. split; [lia|].
  rewrite Hdel, count_below. cbn [delays trace List.filter length]. lia.
Qed.


End Retries.

Lemma failing_chapter_backoff_witness :
  retry_loop (fun _ _ => Refused (lit "503")) (lit "out/subtitles") 1
    {| row_id := lit "1"; row_title := lit "One"; row_part := lit "1";
       row_text := lit "text" |}
    (seq 0 max_retries)
    {| processed := 0; failed := 0; composer := []; trace := [] |}
  = {| processed := 0; failed := 0 + 1; composer := [];
       trace := [] ++ [Attempt 1 0; Backoff 1; Attempt 1 1; Backoff 2;
                       Attempt 1 2] |}.
Proof.
  apply (failing_chapter_backoff (fun _ _ => Refused (lit "503"))
           (lit "out/subtitles") 1
           {| row_id := lit "1"; row_title := lit "One"; row_part := lit "1";
              row_text := lit "text" |}
           {| processed := 0; failed := 0; composer := []; trace := [] |}).
  intros retry. discriminate.
Defined.

Lemma generated_after_retries_witness :
  retry_loop (fun _ retry => if (retry <? 1)%nat then Crashed MutagenError
                             else Generated)
    (lit "subs") 4
    {| row_id := lit "4"; row_title := lit "Four"; row_part := lit "1";
       row_text := lit "thirty characters of text here" |}
    (seq 0 max_retries)
    {| processed := 2; failed := 1; composer := []; trace := [] |}
  = {| processed := 2 + 1; failed := 1;
       composer :=
         [] ++ [chapter_of_row (lit "subs")
                  {| row_id := lit "4"; row_title := lit "Four";
                     row_part := lit "1";
                     row_text := lit "thirty characters of text here" |}];
       trace := [] ++ attempts_until 4 1 |}.
Proof.
  apply (generated_after_retries
           (fun _ retry => if (retry <? 1)%nat then Crashed MutagenError
                           else Generated)
           (lit "subs") 4 1
           {| row_id := lit "4"; row_title := lit "Four"; row_part := lit "1";
              row_text := lit "thirty characters of text here" |}
           {| processed := 2; failed := 1; composer := []; trace := [] |}).
  - unfold max_retries. lia.
  - intros j Hj. assert (j = 0%nat) as -> by lia. discriminate.
  - reflexivity.
Defined.

(* ===================================================================== *)
(** * Properties of the engine settings                                   *)
(* ===================================================================== *)

Section EngineSettings.

Lemma str_of_N_inj (a b : N) : str_of_N a = str_of_N b -> a = b.
Proof.
  intros H. apply (f_equal int_of_digits) in H.
  rewrite !str_of_N_read in H. lia.
Qed.

Lemma fmt_plus_d_inj (a b : Z) : fmt_plus_d a = fmt_plus_d b -> a = b.
Proof.
  unfold fmt_plus_d.
  destruct (Z.ltb_spec a 0) as [Ha|Ha], (Z.ltb_spec b 0) as [Hb|Hb]; simpl;
    intros H; try discriminate; injection H as H; apply str_of_N_inj in H;
    lia.
Qed.

(** The settings keep what they are given up to the clamp, and nothing
    else: two requests give the same rate (pitch, volume) string exactly
    when they are equal after the clamp to -50..50 (0..100 for the volume).
    Requests beyond a bound are the same as the bound. *)
Theorem settings_clamped (e : engine) (x y : Z) :
  (rate (set_rate e x) = rate (set_rate e y)
   <-> clamp (-50) 50 x = clamp (-50) 50 y)
  /\ (pitch (set_pitch e x) = pitch (set_pitch e y)
      <-> clamp (-50) 50 x = clamp (-50) 50 y)
  /\ (volume (set_volume e x) = volume (set_volume e y)
      <-> clamp 0 100 x = clamp 0 100 y).
Proof.
  unfold set_rate, set_pitch, set_volume. cbn [rate pitch volume].
  repeat split; intros H; try (by rewrite H).
  - apply app_inv_tail in H. by apply fmt_plus_d_inj.
  - apply app_inv_tail in H. by apply fmt_plus_d_inj.
  - apply app_inv_tail in H. apply fmt_plus_d_inj in H. lia.
Qed.

(** The volume is never raised: the stored string is "+0%" for a request of
    100 or more, and starts with "-" for every request below 100. *)
Theorem volume_never_raised (e : engine) (volume_percent : Z) :
  (100 <= volume_percent -> volume (set_volume e volume_percent) = lit "+0%")
  /\ (volume_percent < 100 ->
      exists digits,
        volume (set_volume e volume_percent) = lit "-" ++ digits ++ lit "%")
  /\ (volume_percent <= 0 ->
      volume (set_volume e volume_percent) = lit "-100%").
Proof.
  unfold set_volume, clamp. cbn [volume]. repeat split.
  - intros H. replace (Z.max 0 (Z.min 100 volume_percent) - 100) with 0 by lia.
    reflexivity.
  - intros H. unfold fmt_plus_d.
    destruct (Z.ltb_spec (Z.max 0 (Z.min 100 volume_percent) - 100) 0)
      as [_|Hge]; [|lia].
    rewrite <- app_assoc. eauto.
  - intros H.
    replace (Z.max 0 (Z.min 100 volume_percent) - 100) with (-100) by lia.
    reflexivity.
Qed.

Lemma voices_lookup (name voice_id : str) :
  VIETNAMESE_VOICES !! name = Some voice_id ->
  voice_id = lit "vi-VN-HoaiMyNeural" \/ voice_id = lit "vi-VN-NamMinhNeural".
Proof.
  unfold VIETNAMESE_VOICES. intros H.
  apply lookup_insert_Some in H as [[_ <-]|[_ H]]; [by left|].
  apply lookup_insert_Some in H as [[_ <-]|[_ H]]; [by right|].
  by rewrite lookup_empty in H.
Qed.

Lemma voice_ids_not_names :
  VIETNAMESE_VOICES !! lit "vi-VN-HoaiMyNeural" = None
  /\ VIETNAMESE_VOICES !! lit "vi-VN-NamMinhNeural" = None.
Proof. by vm_compute. Qed.

(** [set_voice] resolves a display name to its voice id and takes any other
    string as a voice id; a voice id is never a display name, so that
    setting the voice to the id just stored changes nothing. *)
Theorem set_voice_stable (e : engine) (voice_name : str) :
  set_voice (set_voice e voice_name) (voice (set_voice e voice_name))
  = set_voice e voice_name
  /\ (VIETNAMESE_VOICES !! voice_name = None ->
      voice (set_voice e voice_name) = voice_name).
Proof.
  destruct voice_ids_not_names as [H1 H2].
  unfold set_voice.
  destruct (VIETNAMESE_VOICES !! voice_name) as [voice_id|] eqn:Hv;
    cbn [voice rate pitch volume].
  - split; [|discriminate].
    destruct (voices_lookup _ _ Hv) as [-> | ->]; by rewrite ?H1, ?H2.
  - rewrite Hv. by split.
Qed.

End EngineSettings.

Section ExcelChecks.

Lemma has_column_In (columns : list str) (col : str) :
  has_column columns col = true <-> In col columns.
Proof.
  unfold has_column. rewrite existsb_exists. split.
  - intros (c & Hin & Hc). apply bool_decide_eq_true in Hc. by subst c.
  - intros Hin. exists col. split; [done|]. by apply bool_decide_eq_true.
Qed.

Lemma missing_loop_nil (columns required missing_cols : list str) :
  missing_loop columns required missing_cols = []
  <-> missing_cols = [] /\ Forall (fun col => In col columns) required.
Proof.
  revert missing_cols. induction required as [|col rest IH];
    intros missing_cols; simpl.
  - split; [by intros -> | by intros [-> _]].
  - destruct (has_column columns col) eqn:Hc; cbn [negb].
    + rewrite IH. apply has_column_In in Hc.
      split; intros [Hm Hall]; (split; [done|]).
      * by constructor.
      * by apply Forall_cons in Hall as [_ Hall].
    + rewrite IH. split.
      * intros [Hm _]. by destruct missing_cols.
      * intros [_ Hall]. apply Forall_cons in Hall as [Hin _].
        apply has_column_In in Hin. congruence.
Qed.

(** [_validate_columns] accepts a table exactly when each of the six
    required columns is among its columns; more columns and another order
    of the columns make no difference. *)
Theorem validate_columns_iff (columns : list str) :
  _validate_columns columns = true
  <-> Forall (fun col => In col columns) REQUIRED_COLUMNS.
Proof.
  unfold _validate_columns.
  pose proof (missing_loop_nil columns REQUIRED_COLUMNS []) as H.
  destruct (missing_loop columns REQUIRED_COLUMNS []).
  - split; [intros _; by apply H | done].
  - split; [discriminate | intros Hall].
    destruct H as [_ H]. by specialize (H (conj eq_refl Hall)).
Qed.

(** The preview of a cell is never longer than 103 characters: a text of at
    most 100 characters is shown as it is, a longer one as its first 100
    characters followed by "...". *)
Theorem preview_text_bounded (x : str) :
  (length (preview_text x) <= 103)%nat
  /\ firstn 100 (preview_text x) = firstn 100 x
  /\ ((length x <= 100)%nat -> preview_text x = x).
Proof.
  unfold preview_text.
  destruct (Nat.ltb_spec 100 (length x)) as [Hlong|Hshort].
  - split; [|split; [|lia]].
    + rewrite length_app, firstn_length_le by lia. simpl. lia.
    + rewrite firstn_app, firstn_firstn.
      rewrite firstn_length_le by lia.
      replace (100 - 100)%nat with 0%nat by lia.
      replace (Nat.min 100 100) with 100%nat by lia.
      simpl. by rewrite app_nil_r.
  - split; [lia|]. done.
Qed.

End ExcelChecks.
